(** * Bayesian protein inference: the connected-component functors, the
    grid-search evaluator and the driver [inferPosteriorProbabilities]

    A shallow embedding of BayesianProteinInferenceAlgorithm.cpp.  The C++
    code is imperative: it mutates the Param object, the protein hits reached
    through the pointers stored in the identification graph, and writes to
    std::cout.  All of that is threaded through an explicit environment, in a
    small state-and-failure monad: [None] stands for undefined behaviour
    (indexing a vector out of range, following a dangling or null pointer)
    and for a conversion exception of Param. *)

From Stdlib Require Import Floats ZArith String List Bool Lia.
From stdpp Require Import base option list gmap strings.

Set Warnings "-inexact-float".

(* ===================================================================== *)
(** ** Scalars *)
(* ===================================================================== *)

(** C++ [double]: IEEE 754 binary64. *)
Definition double := float.

(** C++ [long] (LP64): a signed 64-bit integer, overflow is undefined. *)
Definition long_min : Z := (- 2 ^ 63)%Z.
Definition long_max : Z := (2 ^ 63 - 1)%Z.

Definition in_long (z : Z) : bool := ((long_min <=? z) && (z <=? long_max))%Z.

Definition long_sub (a b : Z) : option Z :=
  if in_long (a - b) then Some (a - b)%Z else None.

(** [IDBoostGraph::vertex_t]: the vertex descriptor of a vector-backed
    boost::adjacency_list, an index into the vertex vector. *)
Definition vertex_t := nat.

(* ===================================================================== *)
(** ** Identification data (METADATA) *)
(* ===================================================================== *)

Record ProteinHit := mkProteinHit {
  ph_accession : string;
  ph_score : double
}.

(** Only the evidences' protein accessions are kept: the code reads
    [getPeptideEvidences().size()]. *)
Record PeptideHit := mkPeptideHit {
  pep_score : double;
  pep_evidences : list string
}.

Record ProteinIdentification := mkProteinIdentification {
  score_type : string;
  higher_score_better : bool;
  prot_hits : list ProteinHit
}.

Record PeptideIdentification := mkPeptideIdentification {
  pep_hits : list PeptideHit
}.

(** [ProteinIdentification::ProteinGroup]. *)
Record ProteinGroupRecord := mkProteinGroupRecord {
  probability : double;
  accessions : list string
}.

Definition setScore (s : double) (h : ProteinHit) : ProteinHit :=
  {| ph_accession := ph_accession h; ph_score := s |}.

Definition setScoreType (s : string) (p : ProteinIdentification) : ProteinIdentification :=
  {| score_type := s;
     higher_score_better := higher_score_better p;
     prot_hits := prot_hits p |}.

Definition setHigherScoreBetter (b : bool) (p : ProteinIdentification) : ProteinIdentification :=
  {| score_type := score_type p;
     higher_score_better := b;
     prot_hits := prot_hits p |}.

Definition setHits (hs : list ProteinHit) (p : ProteinIdentification) : ProteinIdentification :=
  {| score_type := score_type p;
     higher_score_better := higher_score_better p;
     prot_hits := hs |}.

(* ===================================================================== *)
(** ** The identification graph (IDBoostGraph), as the functors see it *)
(* ===================================================================== *)

(** Modelled from the spec: the declaration of [IDBoostGraph::IDPointer]
    (IDBoostGraph.h) is missing.  It is a boost::variant with seven
    alternatives whose index [which()] is the vertex kind: Protein (0),
    ProteinGroup (1), PeptideGroup (2), Peptide (3), two kinds the spec does
    not name (4, 5) and PSM (6).  A Protein vertex holds a [ProteinHit*] and
    a PSM vertex a [PeptideHit*] (the [boost::get]s of the source); a pointer
    is the position of its target: [ProteinHitPtr p] points to
    [proteinIDs[0].getHits()[p]] and [PeptideHitPtr i j] to
    [peptideIDs[i].getHits()[j]]. *)
Inductive IDPointer :=
| ProteinHitPtr (p : nat)
| ProteinGroup
| PeptideCluster
| Peptide (sequence : string)
| Kind4
| Kind5
| PeptideHitPtr (i j : nat).

(** [boost::variant::which()], a C++ [int]. *)
Definition which (v : IDPointer) : Z :=
  match v with
  | ProteinHitPtr _ => 0
  | ProteinGroup => 1
  | PeptideCluster => 2
  | Peptide _ => 3
  | Kind4 => 4
  | Kind5 => 5
  | PeptideHitPtr _ _ => 6
  end%Z.

(** A vertex with its bundled property [fg[v]] and its adjacency list,
    in the order [boost::adjacent_vertices] enumerates it. *)
Record Vertex := mkVertex {
  property : IDPointer;
  adjacent_vertices : list vertex_t
}.

Definition Graph := list Vertex.

Definition num_vertices (fg : Graph) : nat := length fg.

(** [boost::vertices(fg)]: the descriptors 0 .. n-1 in order. *)
Definition vertices (fg : Graph) : list vertex_t := seq 0 (num_vertices fg).

(** [fg[v]]; reading past the vertex vector is undefined. *)
Definition prop_at (fg : Graph) (v : vertex_t) : option IDPointer :=
  property <$> fg !! v.

(* ===================================================================== *)
(** ** Param *)
(* ===================================================================== *)

(** [DataValue], restricted to the three value types the class stores. *)
Inductive DataValue :=
| StringValue (s : string)
| IntValue (z : Z)
| DoubleValue (d : double).

Abbreviation Param := (gmap string DataValue).

(** The conversions of a DataValue that the class relies on: a double value
    to [double], a non-negative integer value to [Size]; any other
    conversion is left undefined ([None]). *)
Definition toDouble (v : DataValue) : option double :=
  match v with DoubleValue d => Some d | _ => None end.

Definition toSize (v : DataValue) : option Z :=
  match v with
  | IntValue z => if (0 <=? z)%Z then Some z else None
  | _ => None
  end.

(** [Param::getValue] throws ElementNotFound on an unknown key. *)
Definition getValue (p : Param) (key : string) : option DataValue := p !! key.

Definition setValue (key : string) (v : DataValue) (p : Param) : Param :=
  <[key := v]> p.

(* ===================================================================== *)
(** ** The inference library, as far as the functors hand data to it *)
(* ===================================================================== *)

(** Modelled from the spec: the PMF of the inference library is missing.
    "A PMF stores a contiguous probability vector indexed by integers
    first_support ... last_support inclusive": the first support (a vector
    of [long], one entry per dimension) and the table are stored, the last
    support is the first support plus the table's shape minus one. *)
Record Tensor := mkTensor {
  data_shape : list nat;
  flat : list double
}.

Record PMF := mkPMF {
  first_support : list Z;
  table : Tensor
}.

Definition last_support (p : PMF) : list Z :=
  zip_with (fun f n => (f + Z.of_nat n - 1)%Z) (first_support p) (data_shape (table p)).

Record LabeledPMF := mkLabeledPMF {
  ordered_variables : list vertex_t;
  pmf : PMF
}.

(** Modelled from the spec: MessagePasserFactory.h is missing.  The factory
    "holds alpha, beta, gamma and the marginalization exponent p" and emits
    the four factor kinds of section 4.2; a factor is kept as the call that
    made it, together with the factory parameters its table depends on. *)
Record MessagePasserFactory := mkMessagePasserFactory {
  alpha_ : double;
  beta_ : double;
  gamma_ : double;
  p_ : double
}.

Inductive Dependency :=
| ProteinFactor (gamma : double) (id : vertex_t)
| PeptideEvidenceFactor (id : vertex_t) (prob : double)
| SumEvidenceFactor (alpha beta : double) (nrParents : nat) (pId pepId : vertex_t)
| PeptideProbabilisticAdderFactor (parentProteinIDs : list vertex_t) (nId : vertex_t) (p : double).

Definition createProteinFactor (mpf : MessagePasserFactory) (id : vertex_t) : Dependency :=
  ProteinFactor (gamma_ mpf) id.

Definition createPeptideEvidenceFactor (mpf : MessagePasserFactory) (id : vertex_t)
    (prob : double) : Dependency :=
  PeptideEvidenceFactor id prob.

Definition createSumEvidenceFactor (mpf : MessagePasserFactory) (nrParents : nat)
    (pId pepId : vertex_t) : Dependency :=
  SumEvidenceFactor (alpha_ mpf) (beta_ mpf) nrParents pId pepId.

Definition createPeptideProbabilisticAdderFactor (mpf : MessagePasserFactory)
    (parentProteinIDs : list vertex_t) (nId : vertex_t) : Dependency :=
  PeptideProbabilisticAdderFactor parentProteinIDs nId (p_ mpf).

(** [BetheInferenceGraphBuilder]: the dependencies inserted so far;
    [to_graph] hands them over as the factor graph. *)
Definition BetheInferenceGraphBuilder := list Dependency.
Definition InferenceGraph := list Dependency.

Definition insert_dependency (d : Dependency) (bigb : BetheInferenceGraphBuilder)
    : BetheInferenceGraphBuilder := bigb ++ [d].

Definition to_graph (bigb : BetheInferenceGraphBuilder) : InferenceGraph := bigb.

(** The three schedules of section 4.4 of the spec and a scheduler object:
    its schedule and the three constructor arguments. *)
Inductive SchedulerKind := PriorityScheduler | FIFOScheduler | RandomSubtreeScheduler.

Record Scheduler := mkScheduler {
  sched_kind : SchedulerKind;
  dampening_lambda : double;
  convergence_threshold : double;
  maximum_iterations : Z
}.

(** The schedule a value of loopy_belief_propagation:scheduling_type names. *)
Definition scheduler_named (s : string) : option SchedulerKind :=
  if String.eqb s "priority" then Some PriorityScheduler
  else if String.eqb s "fifo" then Some FIFOScheduler
  else if String.eqb s "random_spanning_tree" then Some RandomSubtreeScheduler
  else None.

(* ===================================================================== *)
(** ** Environment, log and the monad of the algorithm *)
(* ===================================================================== *)

(** The three functor classes of the file. *)
Inductive FunctorName :=
| AnnotateIndistGroups
| GraphInference
| ExtendedGraphInference.

(** The log: the lines written to std::cout (the [Cout] entries, with the
    values printed) and, in program order, one entry for each call that the
    claims talk about: the two setters of [proteinIDs[0]], each
    [applyFunctorOnCCs] with the functor handed over, and each call of the
    inference engine with the scheduler, the factor graph and the variables
    it gets. *)
Inductive Event :=
| CallSetScoreType (s : string)
| CallSetHigherScoreBetter (b : bool)
| CallApplyFunctorOnCCs (f : FunctorName)
| CallEstimatePosteriors (scheduler : Scheduler) (ig : InferenceGraph)
    (posteriorVars : list (list vertex_t))
| CoutSkipped
| CoutEvaluating (alpha beta gamma : double)
| CoutBestParams (i j k : nat)
| CoutRunningAgain.

(** What the code reaches: the member [param_] of the algorithm object, the
    two vectors passed by reference to [inferPosteriorProbabilities], and the
    log.  The references and pointers of the C++ code ([const Param&] in the
    functors, [ProteinIdentification&] in the evaluator and the graph,
    [ProteinHit*] and [PeptideHit*] in the vertices) all point into this one
    environment. *)
Record Env := mkEnv {
  param_ : Param;
  proteinIDs : list ProteinIdentification;
  peptideIDs : list PeptideIdentification;
  log : list Event
}.

Definition M (A : Type) : Type := Env -> option (A * Env).

Definition ret {A} (a : A) : M A := fun env => Some (a, env).

Definition bind {A B} (m : M A) (k : A -> M B) : M B :=
  fun env => match m env with
             | Some (a, env') => k a env'
             | None => None
             end.

Notation "x <-- m ; k" := (bind m (fun x => k))
  (at level 20, m at level 100, k at level 200, only parsing).
Notation "m ;;; k" := (bind m (fun _ => k))
  (at level 100, k at level 200, right associativity, only parsing).

(** An expression that reads the environment and may be undefined. *)
Definition reading {A} (f : Env -> option A) : M A :=
  fun env => match f env with Some a => Some (a, env) | None => None end.

Definition emit (e : Event) : M unit :=
  fun env => Some (tt, {| param_ := param_ env; proteinIDs := proteinIDs env;
                          peptideIDs := peptideIDs env; log := log env ++ [e] |}).

Fixpoint for_each {A} (l : list A) (body : A -> M unit) : M unit :=
  match l with
  | [] => ret tt
  | x :: rest => body x ;;; for_each rest body
  end.

(** [param_.getValue(key)] converted to [double], to [Size]. *)
Definition getDouble (key : string) : M double :=
  reading (fun env => getValue (param_ env) key ≫= toDouble).

Definition getSize (key : string) : M Z :=
  reading (fun env => getValue (param_ env) key ≫= toSize).

Definition setParam (key : string) (v : DataValue) : M unit :=
  fun env => Some (tt, {| param_ := setValue key v (param_ env); proteinIDs := proteinIDs env;
                          peptideIDs := peptideIDs env; log := log env |}).

(** [proteinIDs[0]] as an lvalue: undefined on an empty vector. *)
Definition firstProteinID (env : Env) : option ProteinIdentification :=
  proteinIDs env !! 0%nat.

Definition modifyFirstProteinID (f : ProteinIdentification -> ProteinIdentification) : M unit :=
  fun env => match proteinIDs env with
             | [] => None
             | p :: rest =>
                 Some (tt, {| param_ := param_ env; proteinIDs := f p :: rest;
                              peptideIDs := peptideIDs env; log := log env |})
             end.

(** Following a [ProteinHit*] or a [PeptideHit*]. *)
Definition deref_ProteinHit (env : Env) (p : nat) : option ProteinHit :=
  prots ← firstProteinID env; prot_hits prots !! p.

Definition deref_PeptideHit (env : Env) (ij : nat * nat) : option PeptideHit :=
  pid ← peptideIDs env !! fst ij; pep_hits pid !! snd ij.

(** Writing through a [ProteinHit*]. *)
Definition update_ProteinHit (p : nat) (f : ProteinHit -> ProteinHit) : M unit :=
  fun env => match proteinIDs env with
             | [] => None
             | prots :: rest =>
                 match prot_hits prots !! p with
                 | None => None
                 | Some h =>
                     Some (tt, {| param_ := param_ env;
                                  proteinIDs := setHits (<[p := f h]> (prot_hits prots)) prots :: rest;
                                  peptideIDs := peptideIDs env; log := log env |})
                 end
             end.

(** [boost::get<ProteinHit*>], [boost::get<PeptideHit*>]: defined on the
    matching alternative only. *)
Definition get_ProteinHitPtr (v : IDPointer) : option nat :=
  match v with ProteinHitPtr p => Some p | _ => None end.

Definition get_PeptideHitPtr (v : IDPointer) : option (nat * nat) :=
  match v with PeptideHitPtr i j => Some (i, j) | _ => None end.

(* ===================================================================== *)
(** ** AnnotateIndistGroupsFunctor *)
(* ===================================================================== *)

(** The inner loop over the neighbours of a protein-group vertex: [pg] and
    [proteinPtr] are the two locals it updates ([None] is [nullptr]). *)
Fixpoint annotate_neighbours (env : Env) (fg : Graph) (nbs : list vertex_t)
    (pg : ProteinGroupRecord) (proteinPtr : option nat)
    : option (ProteinGroupRecord * option nat) :=
  match nbs with
  | [] => Some (pg, proteinPtr)
  | nb :: rest =>
      v ← prop_at fg nb;
      if (which v =? 0)%Z then
        p ← get_ProteinHitPtr v;
        hit ← deref_ProteinHit env p;
        annotate_neighbours env fg rest
          {| probability := probability pg;
             accessions := accessions pg ++ [ph_accession hit] |} (Some p)
      else annotate_neighbours env fg rest pg proteinPtr
  end.

(** One iteration of the loop over the vertices: the value the local [pg]
    has when its block ends, for a protein-group vertex. *)
Definition annotate_vertex (env : Env) (fg : Graph) (ui : vertex_t)
    : option (option ProteinGroupRecord) :=
  v ← fg !! ui;
  if (which (property v) =? 1)%Z then
    let pg := {| probability := (-1.0)%float; accessions := [] |} in
    '(pg, proteinPtr) ← annotate_neighbours env fg (adjacent_vertices v) pg None;
    p ← proteinPtr;
    hit ← deref_ProteinHit env p;
    Some (Some {| probability := ph_score hit; accessions := accessions pg |})
  else Some None.

Fixpoint annotate_vertices (env : Env) (fg : Graph) (uis : list vertex_t)
    : option (list ProteinGroupRecord) :=
  match uis with
  | [] => Some []
  | ui :: rest =>
      r ← annotate_vertex env fg ui;
      rs ← annotate_vertices env fg rest;
      Some (from_option (fun pg => [pg]) [] r ++ rs)
  end.

(** [operator()]: the C++ functor returns nothing and stores nothing; the
    result here is the list of the group records it has formed in its local
    [pg], in vertex order. *)
Definition AnnotateIndistGroupsFunctor (env : Env) (fg : Graph)
    : option (list ProteinGroupRecord) :=
  if (2 <=? num_vertices fg)%nat then annotate_vertices env fg (vertices fg)
  else Some [].

(** The functor as [applyFunctorOnCCs] runs it: no effect on the environment. *)
Definition runAnnotateIndistGroupsFunctor (fg : Graph) : M unit :=
  reading (fun env => AnnotateIndistGroupsFunctor env fg) ;;; ret tt.

(* ===================================================================== *)
(** ** GraphInferenceFunctor and ExtendedGraphInferenceFunctor *)
(* ===================================================================== *)

(** Modelled from the spec: [IDBoostGraph::SetPosteriorVisitor] is missing.
    The posterior is "written onto the corresponding identification-graph
    vertex's score field (dispatched by vertex kind; Proteins receive it
    directly; other kinds ignore)". *)
Definition SetPosteriorVisitor (v : IDPointer) (posterior : double) : M unit :=
  match v with
  | ProteinHitPtr p => update_ProteinHit p (setScore posterior)
  | _ => ret tt
  end.

(** The locals of [operator()] that the loop over the vertices updates. *)
Record BuilderLocals := mkBuilderLocals {
  bigb : BetheInferenceGraphBuilder;
  posteriorVars : list (list vertex_t);
  in_ : list vertex_t
}.

Module GraphInferenceFunctor.

(** The loop over the adjacent vertices of [ui] that fills [in]. *)
Fixpoint neighbour_loop (fg : Graph) (ui : vertex_t) (nbs : list vertex_t)
    (in_ : list vertex_t) : option (list vertex_t) :=
  match nbs with
  | [] => Some in_
  | nb :: rest =>
      wn ← which <$> prop_at fg nb;
      wu ← which <$> prop_at fg ui;
      neighbour_loop fg ui rest (if (wn <? wu)%Z then in_ ++ [nb] else in_)
  end.

(** The body of the loop over the vertices. *)
Definition vertex_body (env : Env) (mpf : MessagePasserFactory) (fg : Graph)
    (st : BuilderLocals) (ui : vertex_t) : option BuilderLocals :=
  v ← fg !! ui;
  in_ ← neighbour_loop fg ui (adjacent_vertices v) [];
  if (which (property v) =? 6)%Z then
    hit ← get_PeptideHitPtr (property v) ≫= deref_PeptideHit env;
    in0 ← in_ !! 0%nat;
    let bigb1 :=
      insert_dependency
        (createSumEvidenceFactor mpf (length (pep_evidences hit)) in0 ui) (bigb st) in
    let bigb2 :=
      insert_dependency (createPeptideEvidenceFactor mpf ui (pep_score hit)) bigb1 in
    Some {| bigb := bigb2; posteriorVars := posteriorVars st; in_ := in_ |}
  else if (which (property v) =? 2)%Z then
    Some {| bigb := insert_dependency (createPeptideProbabilisticAdderFactor mpf in_ ui) (bigb st);
            posteriorVars := posteriorVars st; in_ := in_ |}
  else if (which (property v) =? 1)%Z then
    Some {| bigb := insert_dependency (createPeptideProbabilisticAdderFactor mpf in_ ui) (bigb st);
            posteriorVars := posteriorVars st; in_ := in_ |}
  else if (which (property v) =? 0)%Z then
    Some {| bigb := insert_dependency (createProteinFactor mpf ui) (bigb st);
            posteriorVars := posteriorVars st ++ [[ui]]; in_ := in_ |}
  else
    Some {| bigb := bigb st; posteriorVars := posteriorVars st; in_ := in_ |}.

Fixpoint vertex_loop (env : Env) (mpf : MessagePasserFactory) (fg : Graph)
    (uis : list vertex_t) (st : BuilderLocals) : option BuilderLocals :=
  match uis with
  | [] => Some st
  | ui :: rest => st' ← vertex_body env mpf fg st ui; vertex_loop env mpf fg rest st'
  end.

(** The local [posterior] of the write-back loop when the visitor is bound. *)
Definition posterior_of (pmf : PMF) : option double :=
  fs ← first_support pmf !! 0%nat;
  if (1 >=? fs)%Z then
    ls ← last_support pmf !! 0%nat;
    if (1 <=? ls)%Z then
      idx ← long_sub 1 fs;
      flat (table pmf) !! Z.to_nat idx
    else Some 0.0%float
  else Some 0.0%float.

(** The body of the loop over [posteriorFactors]. *)
Definition write_back (fg : Graph) (posteriorFactor : LabeledPMF) : M unit :=
  nodeId <-- reading (fun _ => ordered_variables posteriorFactor !! 0%nat);
  posterior <-- reading (fun _ => posterior_of (pmf posteriorFactor));
  v <-- reading (fun _ => prop_at fg nodeId);
  SetPosteriorVisitor v posterior.

End GraphInferenceFunctor.

Module ExtendedGraphInferenceFunctor.

Fixpoint neighbour_loop (fg : Graph) (ui : vertex_t) (nbs : list vertex_t)
    (in_ : list vertex_t) : option (list vertex_t) :=
  match nbs with
  | [] => Some in_
  | nb :: rest =>
      wn ← which <$> prop_at fg nb;
      wu ← which <$> prop_at fg ui;
      neighbour_loop fg ui rest (if (wn <? wu)%Z then in_ ++ [nb] else in_)
  end.

Definition vertex_body (env : Env) (mpf : MessagePasserFactory) (fg : Graph)
    (st : BuilderLocals) (ui : vertex_t) : option BuilderLocals :=
  v ← fg !! ui;
  in_ ← neighbour_loop fg ui (adjacent_vertices v) [];
  if (which (property v) =? 6)%Z then
    hit ← get_PeptideHitPtr (property v) ≫= deref_PeptideHit env;
    in0 ← in_ !! 0%nat;
    let bigb1 :=
      insert_dependency
        (createSumEvidenceFactor mpf (length (pep_evidences hit)) in0 ui) (bigb st) in
    let bigb2 :=
      insert_dependency (createPeptideEvidenceFactor mpf ui (pep_score hit)) bigb1 in
    Some {| bigb := bigb2; posteriorVars := posteriorVars st; in_ := in_ |}
  else if (which (property v) =? 2)%Z then
    Some {| bigb := insert_dependency (createPeptideProbabilisticAdderFactor mpf in_ ui) (bigb st);
            posteriorVars := posteriorVars st; in_ := in_ |}
  else if (which (property v) =? 1)%Z then
    Some {| bigb := insert_dependency (createPeptideProbabilisticAdderFactor mpf in_ ui) (bigb st);
            posteriorVars := posteriorVars st; in_ := in_ |}
  else if (which (property v) =? 0)%Z then
    Some {| bigb := insert_dependency (createProteinFactor mpf ui) (bigb st);
            posteriorVars := posteriorVars st ++ [[ui]]; in_ := in_ |}
  else
    Some {| bigb := bigb st; posteriorVars := posteriorVars st; in_ := in_ |}.

Fixpoint vertex_loop (env : Env) (mpf : MessagePasserFactory) (fg : Graph)
    (uis : list vertex_t) (st : BuilderLocals) : option BuilderLocals :=
  match uis with
  | [] => Some st
  | ui :: rest => st' ← vertex_body env mpf fg st ui; vertex_loop env mpf fg rest st'
  end.

Definition posterior_of (pmf : PMF) : option double :=
  fs ← first_support pmf !! 0%nat;
  if (1 >=? fs)%Z then
    ls ← last_support pmf !! 0%nat;
    if (1 <=? ls)%Z then
      idx ← long_sub 1 fs;
      flat (table pmf) !! Z.to_nat idx
    else Some 0.0%float
  else Some 0.0%float.

Definition write_back (fg : Graph) (posteriorFactor : LabeledPMF) : M unit :=
  nodeId <-- reading (fun _ => ordered_variables posteriorFactor !! 0%nat);
  posterior <-- reading (fun _ => posterior_of (pmf posteriorFactor));
  v <-- reading (fun _ => prop_at fg nodeId);
  SetPosteriorVisitor v posterior.

End ExtendedGraphInferenceFunctor.

(* ===================================================================== *)
(** ** The constructor: default parameter values *)
(* ===================================================================== *)

(** [defaults_] after the [setValue] calls of the constructor, which
    [defaultsToParam_()] copies into [param_]. *)
Definition defaults_ : Param :=
  setValue "param_optimize:aucweight" (DoubleValue 0.2%float)
  (setValue "loopy_belief_propagation:max_nr_iterations" (IntValue (Z.shiftl 1 32))
  (setValue "loopy_belief_propagation:dampening_lambda" (DoubleValue 1e-3%float)
  (setValue "loopy_belief_propagation:convergence_threshold" (DoubleValue 1e-5%float)
  (setValue "loopy_belief_propagation:scheduling_type" (StringValue "priority")
  (setValue "model_parameters:pep_spurious_emission" (DoubleValue 0.001%float)
  (setValue "model_parameters:pep_emission" (DoubleValue 0.1%float)
  (setValue "model_parameters:prot_prior" (DoubleValue 0.9%float)
  (setValue "top_PSMs" (IntValue 1)
  (setValue "annotate_groups_only" (StringValue "false") ∅))))))))).

(** [setValidStrings("loopy_belief_propagation:scheduling_type", ...)]. *)
Definition scheduling_type_valid_strings : list string :=
  ["priority"; "fifo"; "random_spanning_tree"].

(** [DataValue::toBool]: defined on the strings "true" and "false". *)
Definition toBool (v : DataValue) : option bool :=
  match v with
  | StringValue s =>
      if String.eqb s "true" then Some true
      else if String.eqb s "false" then Some false
      else None
  | _ => None
  end.

(* ===================================================================== *)
(** ** The driver and its collaborators *)
(* ===================================================================== *)

(** [IDBoostGraph], as far as the class under study sees it: the graph and
    its connected components, each handed to a functor as a [Graph&]. *)
Record IDBoostGraph := mkIDBoostGraph {
  g : Graph;
  ccs_ : list Graph
}.

(** The grids of the search; the same three vectors in both branches. *)
Definition gamma_search : list double := [0.5%float].
Definition beta_search : list double := [0.001%float].
Definition alpha_search : list double := [0.1; 0.3; 0.5; 0.7; 0.9]%float.

Section Driver.

(** The collaborators that are outside the class: the belief-propagation
    engine ([add_ab_initio_edges], message passing and
    [estimate_posteriors], as one function of the scheduler, the factor
    graph and the requested variables), the FDR objective, and the steps
    that construct the identification graph, which read the identifications
    and change the graph object only. *)
Variable estimate_posteriors :
  Scheduler -> InferenceGraph -> list (list vertex_t) -> list LabeledPMF.
Variable applyEvaluateProteinIDs : ProteinIdentification -> double.
Variable buildGraph buildGraphWithRunInfo :
  Z -> ProteinIdentification -> list PeptideIdentification -> IDBoostGraph -> IDBoostGraph.
Variable computeConnectedComponents : IDBoostGraph -> IDBoostGraph.
Variable clusterIndistProteinsAndPeptides : IDBoostGraph -> IDBoostGraph.
Variable clusterIndistProteinsAndPeptidesAndExtendGraph : IDBoostGraph -> IDBoostGraph.

(** [GraphInferenceFunctor::operator()]. *)
Definition GraphInferenceFunctor_call (fg : Graph) : M unit :=
  if (2 <=? num_vertices fg)%nat then
    alpha <-- getDouble "model_parameters:pep_emission";
    beta <-- getDouble "model_parameters:pep_spurious_emission";
    gamma <-- getDouble "model_parameters:prot_prior";
    let mpf := {| alpha_ := alpha; beta_ := beta; gamma_ := gamma; p_ := 1.0%float |} in
    st <-- reading (fun env =>
             GraphInferenceFunctor.vertex_loop env mpf fg (vertices fg)
               {| bigb := []; posteriorVars := []; in_ := [] |});
    let ig := to_graph (bigb st) in
    lambda <-- getDouble "loopy_belief_propagation:dampening_lambda";
    threshold <-- getDouble "loopy_belief_propagation:convergence_threshold";
    max_iter <-- getSize "loopy_belief_propagation:max_nr_iterations";
    let scheduler :=
      {| sched_kind := PriorityScheduler; dampening_lambda := lambda;
         convergence_threshold := threshold; maximum_iterations := max_iter |} in
    emit (CallEstimatePosteriors scheduler ig (posteriorVars st)) ;;;
    let posteriorFactors := estimate_posteriors scheduler ig (posteriorVars st) in
    for_each posteriorFactors (GraphInferenceFunctor.write_back fg)
  else emit CoutSkipped.

(** [ExtendedGraphInferenceFunctor::operator()]. *)
Definition ExtendedGraphInferenceFunctor_call (fg : Graph) : M unit :=
  if (2 <=? num_vertices fg)%nat then
    alpha <-- getDouble "model_parameters:pep_emission";
    beta <-- getDouble "model_parameters:pep_spurious_emission";
    gamma <-- getDouble "model_parameters:prot_prior";
    let mpf := {| alpha_ := alpha; beta_ := beta; gamma_ := gamma; p_ := 1.0%float |} in
    st <-- reading (fun env =>
             ExtendedGraphInferenceFunctor.vertex_loop env mpf fg (vertices fg)
               {| bigb := []; posteriorVars := []; in_ := [] |});
    let ig := to_graph (bigb st) in
    lambda <-- getDouble "loopy_belief_propagation:dampening_lambda";
    threshold <-- getDouble "loopy_belief_propagation:convergence_threshold";
    max_iter <-- getSize "loopy_belief_propagation:max_nr_iterations";
    let scheduler :=
      {| sched_kind := PriorityScheduler; dampening_lambda := lambda;
         convergence_threshold := threshold; maximum_iterations := max_iter |} in
    emit (CallEstimatePosteriors scheduler ig (posteriorVars st)) ;;;
    let posteriorFactors := estimate_posteriors scheduler ig (posteriorVars st) in
    for_each posteriorFactors (ExtendedGraphInferenceFunctor.write_back fg)
  else emit CoutSkipped.

(** The functor object handed to [applyFunctorOnCCs]. *)
Definition functor_call (f : FunctorName) : Graph -> M unit :=
  match f with
  | AnnotateIndistGroups => runAnnotateIndistGroupsFunctor
  | GraphInference => GraphInferenceFunctor_call
  | ExtendedGraphInference => ExtendedGraphInferenceFunctor_call
  end.

(** Modelled from the spec: [IDBoostGraph::applyFunctorOnCCs] is missing.
    It "iterates components of the identification graph, presenting each
    as an independent subgraph view"; the components are taken in order. *)
Definition applyFunctorOnCCs (ibg : IDBoostGraph) (f : FunctorName) : M unit :=
  emit (CallApplyFunctorOnCCs f) ;;;
  for_each (ccs_ ibg) (functor_call f).

(** [GridSearchEvaluator::operator()]; [prots_] refers to [proteinIDs[0]]. *)
Definition GridSearchEvaluator (ibg : IDBoostGraph) (alpha beta gamma : double) : M double :=
  emit (CoutEvaluating alpha beta gamma) ;;;
  setParam "model_parameters:prot_prior" (DoubleValue gamma) ;;;
  setParam "model_parameters:pep_emission" (DoubleValue alpha) ;;;
  setParam "model_parameters:pep_spurious_emission" (DoubleValue beta) ;;;
  applyFunctorOnCCs ibg GraphInference ;;;
  prots <-- reading firstProteinID;
  ret (applyEvaluateProteinIDs prots).

(** Modelled from the spec: GridSearch.h is missing.  "For each (a,b,g) in
    A x B x G: set model params, invoke ..., compute the external
    objective J, track argmax; ties broken by lexicographic (a,b,g)".
    The grid is scanned in lexicographic order of the indices and a point
    replaces the best one when its objective is strictly larger; the
    result indices are in the order of the three vectors. *)
Definition grid_points (A B G : list double)
    : list ((nat * nat * nat) * (double * double * double)) :=
  ia ← imap pair A; jb ← imap pair B; kg ← imap pair G;
  [((ia.1, jb.1, kg.1), (ia.2, jb.2, kg.2))].

Fixpoint GridSearch_scan (evaluator : double -> double -> double -> M double)
    (points : list ((nat * nat * nat) * (double * double * double)))
    (bestValue : double) (bestIndices : nat * nat * nat)
    : M (double * (nat * nat * nat)) :=
  match points with
  | [] => ret (bestValue, bestIndices)
  | (idx, (a, b, c)) :: rest =>
      J <-- evaluator a b c;
      if PrimFloat.ltb bestValue J then GridSearch_scan evaluator rest J idx
      else GridSearch_scan evaluator rest bestValue bestIndices
  end.

Definition GridSearch_evaluate (A B G : list double)
    (evaluator : double -> double -> double -> M double)
    (startValue : double) (resultIndices : nat * nat * nat)
    : M (double * (nat * nat * nat)) :=
  GridSearch_scan evaluator (grid_points A B G) startValue resultIndices.

(** [inferPosteriorProbabilities(proteinIDs, peptideIDs)]. *)
Definition inferPosteriorProbabilities : M unit :=
  emit (CallSetScoreType "Posterior Probability") ;;;
  modifyFirstProteinID (setScoreType "Posterior Probability") ;;;
  emit (CallSetHigherScoreBetter true) ;;;
  modifyFirstProteinID (setHigherScoreBetter true) ;;;
  let ibg := {| g := []; ccs_ := [] |} in
  let oldway := false in
  if oldway then
    top_PSMs <-- getSize "top_PSMs";
    ibg <-- reading (fun env =>
              prots ← firstProteinID env;
              Some (buildGraph top_PSMs prots (peptideIDs env) ibg));
    let ibg := computeConnectedComponents ibg in
    let ibg := clusterIndistProteinsAndPeptides ibg in
    let bestParams := (0, 0, 0)%nat in
    r <-- GridSearch_evaluate alpha_search beta_search gamma_search
            (GridSearchEvaluator ibg) (-1.0)%float bestParams;
    let bestParams := r.2 in
    emit (CoutBestParams bestParams.1.1 bestParams.1.2 bestParams.2) ;;;
    bestGamma <-- reading (fun _ => gamma_search !! bestParams.1.1);
    bestBeta <-- reading (fun _ => beta_search !! bestParams.1.2);
    bestAlpha <-- reading (fun _ => alpha_search !! bestParams.2);
    emit CoutRunningAgain ;;;
    setParam "model_parameters:prot_prior" (DoubleValue bestGamma) ;;;
    setParam "model_parameters:pep_emission" (DoubleValue bestAlpha) ;;;
    setParam "model_parameters:pep_spurious_emission" (DoubleValue bestBeta) ;;;
    applyFunctorOnCCs ibg GraphInference ;;;
    applyFunctorOnCCs ibg AnnotateIndistGroups
  else
    top_PSMs <-- getSize "top_PSMs";
    ibg <-- reading (fun env =>
              prots ← firstProteinID env;
              Some (buildGraphWithRunInfo top_PSMs prots (peptideIDs env) ibg));
    let ibg := computeConnectedComponents ibg in
    let ibg := clusterIndistProteinsAndPeptidesAndExtendGraph ibg in
    let bestParams := (0, 0, 0)%nat in
    r <-- GridSearch_evaluate alpha_search beta_search gamma_search
            (GridSearchEvaluator ibg) (-1.0)%float bestParams;
    let bestParams := r.2 in
    emit (CoutBestParams bestParams.1.1 bestParams.1.2 bestParams.2) ;;;
    bestGamma <-- reading (fun _ => gamma_search !! bestParams.1.1);
    bestBeta <-- reading (fun _ => beta_search !! bestParams.1.2);
    bestAlpha <-- reading (fun _ => alpha_search !! bestParams.2);
    emit CoutRunningAgain ;;;
    setParam "model_parameters:prot_prior" (DoubleValue bestGamma) ;;;
    setParam "model_parameters:pep_emission" (DoubleValue bestAlpha) ;;;
    setParam "model_parameters:pep_spurious_emission" (DoubleValue bestBeta) ;;;
    applyFunctorOnCCs ibg ExtendedGraphInference ;;;
    applyFunctorOnCCs ibg AnnotateIndistGroups.

End Driver.

(* ===================================================================== *)
(** ** The spec's wording, to compare the code with *)
(* ===================================================================== *)

(** Well-formedness of what the functors are handed.  In a boost graph the
    adjacency lists name vertices of the graph. *)
Definition adjacency_ok (fg : Graph) : bool :=
  forallb (fun v => forallb (fun nb => (nb <? num_vertices fg)%nat) (adjacent_vertices v)) fg.

(** [nb] is a vertex of [fg] whose kind is strictly smaller than [k]. *)
Definition lower_kind (fg : Graph) (k : Z) (nb : vertex_t) : bool :=
  match prop_at fg nb with
  | Some w => (which w <? k)%Z
  | None => false
  end.

(** Spec 3: a PSM vertex points to a peptide hit and has a neighbour of a
    smaller kind (the peptide it belongs to). *)
Definition psm_ok (env : Env) (fg : Graph) : bool :=
  forallb (fun v =>
             match property v with
             | PeptideHitPtr i j =>
                 bool_decide (is_Some (deref_PeptideHit env (i, j)))
                 && existsb (lower_kind fg 6) (adjacent_vertices v)
             | _ => true
             end) fg.

(** Spec 4.3: "the subset of u's neighbors with strictly smaller kind
    (called in)". *)
Definition spec_in (fg : Graph) (u : vertex_t) : list vertex_t :=
  match fg !! u with
  | Some v => List.filter (lower_kind fg (which (property v))) (adjacent_vertices v)
  | None => []
  end.

(** Spec 4.3: the table "u's kind | Factors inserted". *)
Definition spec_factors (env : Env) (mpf : MessagePasserFactory) (fg : Graph)
    (u : vertex_t) : list Dependency :=
  match prop_at fg u with
  | Some (ProteinHitPtr _) => [createProteinFactor mpf u]
  | Some ProteinGroup => [createPeptideProbabilisticAdderFactor mpf (spec_in fg u) u]
  | Some PeptideCluster => [createPeptideProbabilisticAdderFactor mpf (spec_in fg u) u]
  | Some (PeptideHitPtr i j) =>
      match deref_PeptideHit env (i, j), spec_in fg u with
      | Some hit, parent :: _ =>
          [createSumEvidenceFactor mpf (length (pep_evidences hit)) parent u;
           createPeptideEvidenceFactor mpf u (pep_score hit)]
      | _, _ => []
      end
  | _ => []
  end.

Definition is_protein (fg : Graph) (u : vertex_t) : bool :=
  match prop_at fg u with
  | Some (ProteinHitPtr _) => true
  | _ => false
  end.

(** Spec 4.3: "record u in posteriorVars", for the Protein vertices. *)
Definition spec_posteriorVars (fg : Graph) : list (list vertex_t) :=
  map (fun u => [u]) (List.filter (is_protein fg) (vertices fg)).

(** A posterior as the engine returns it for one binary variable: one
    dimension, a table of the size its shape says, supports that are [long]s. *)
Definition wf_PMF (p : PMF) : bool :=
  match first_support p, data_shape (table p) with
  | [fs], [n] =>
      (length (flat (table p)) =? n)%nat
      && in_long fs && in_long (fs + Z.of_nat n - 1)
      && (Z.of_nat n <=? long_max)%Z
  | _, _ => false
  end.

(** Spec 4.8: the protein hits behind "all adjacent Protein vertices" of a
    vertex, in adjacency order. *)
Definition proteins_of (env : Env) (fg : Graph) (nbs : list vertex_t) : list ProteinHit :=
  omap (fun nb => w ← prop_at fg nb; p ← get_ProteinHitPtr w; deref_ProteinHit env p) nbs.

Definition adjacent_proteins (env : Env) (fg : Graph) (v : Vertex) : list ProteinHit :=
  proteins_of env fg (adjacent_vertices v).

(** The protein pointers of the graph are valid and every protein-group
    vertex has a protein neighbour (spec 3). *)
Definition groups_ok (env : Env) (fg : Graph) : bool :=
  forallb (fun v =>
             match property v with
             | ProteinHitPtr p => bool_decide (is_Some (deref_ProteinHit env p))
             | ProteinGroup => existsb (is_protein fg) (adjacent_vertices v)
             | _ => true
             end) fg.

(** The group record of spec 4.8 as the code forms it: the accessions of
    the adjacent proteins and the score of the last of them. *)
Definition spec_group (env : Env) (fg : Graph) (u : vertex_t) : option ProteinGroupRecord :=
  v ← fg !! u;
  match property v with
  | ProteinGroup =>
      rep ← last (adjacent_proteins env fg v);
      Some {| probability := ph_score rep;
              accessions := map ph_accession (adjacent_proteins env fg v) |}
  | _ => None
  end.

(** The relation between the environment before and after a step that only
    writes protein scores and the log: the elements of [proteinIDs] after
    the first, the score type and the flag of the first, and [peptideIDs]
    are kept, and the log is extended. *)
Definition meta (p : ProteinIdentification) : string * bool :=
  (score_type p, higher_score_better p).

(** A log entry that is not a call of the engine with a scheduler other
    than the priority scheduler. *)
Definition priority_only (e : Event) : Prop :=
  match e with
  | CallEstimatePosteriors scheduler _ _ => sched_kind scheduler = PriorityScheduler
  | _ => True
  end.

Record frame (env env' : Env) : Prop := mkFrame {
  frame_tail : tail (proteinIDs env') = tail (proteinIDs env);
  frame_meta : meta <$> head (proteinIDs env') = meta <$> head (proteinIDs env);
  frame_peptides : peptideIDs env' = peptideIDs env;
  frame_log : exists l, log env' = log env ++ l /\ Forall priority_only l
}.

(** The schedules of the engine calls of a log, in order. *)
Definition schedules_used (l : list Event) : list SchedulerKind :=
  omap (fun e => match e with
                 | CallEstimatePosteriors scheduler _ _ => Some (sched_kind scheduler)
                 | _ => None
                 end) l.

Definition keeps_frame {A} (m : M A) : Prop :=
  forall env a env', m env = Some (a, env') -> frame env env'.

(** The functors handed to [applyFunctorOnCCs] in a log, in order. *)
Definition functors_applied (l : list Event) : list FunctorName :=
  omap (fun e => match e with
                 | CallApplyFunctorOnCCs f => Some f
                 | _ => None
                 end) l.

(** The model parameters (alpha, beta, gamma) of the factor graphs handed
    to the engine in a log, read off the factors, in order. *)
Definition emission_of (ig : InferenceGraph) : option double :=
  head (omap (fun d => match d with
                       | SumEvidenceFactor a _ _ _ _ => Some a
                       | _ => None
                       end) ig).

Definition emissions_used (l : list Event) : list (option double) :=
  omap (fun e => match e with
                 | CallEstimatePosteriors _ ig _ => Some (emission_of ig)
                 | _ => None
                 end) l.

(** The schedule that loopy_belief_propagation:scheduling_type names in a
    Param (section 4.4 of the spec: "Three variants selectable by config"). *)
Definition toString (v : DataValue) : option string :=
  match v with StringValue s => Some s | _ => None end.

Definition configured_scheduler (p : Param) : option SchedulerKind :=
  v ← getValue p "loopy_belief_propagation:scheduling_type";
  s ← toString v;
  scheduler_named s.

(* ===================================================================== *)
(** ** Concrete inputs and test doubles for the collaborators *)
(* ===================================================================== *)

Module Scenario.

(** An engine double: every requested variable gets the PMF over {0,1}
    whose P(1) is the emission probability found in the factor graph. *)
Definition alpha_of (ig : InferenceGraph) : double :=
  from_option id 0.0%float
    (head (omap (fun d => match d with
                          | SumEvidenceFactor a _ _ _ _ => Some a
                          | _ => None
                          end) ig)).

Definition engine (s : Scheduler) (ig : InferenceGraph) (vars : list (list vertex_t))
    : list LabeledPMF :=
  map (fun v => {| ordered_variables := v;
                   pmf := {| first_support := [0%Z];
                             table := {| data_shape := [2%nat];
                                         flat := [(1 - alpha_of ig)%float; alpha_of ig] |} |} |})
      vars.

(** An objective double in the manner of end-to-end scenario 6 of the
    spec: the closer the first protein's score to [target], the larger. *)
Definition fdr (target : double) (prots : ProteinIdentification) : double :=
  let s := from_option ph_score 0.0%float (head (prot_hits prots)) in
  (- ((s - target) * (s - target)))%float.

(** One protein, one PSM (end-to-end scenario 1 of the spec). *)
Definition cc : Graph :=
  [ {| property := ProteinHitPtr 0; adjacent_vertices := [1%nat] |};
    {| property := PeptideHitPtr 0 0; adjacent_vertices := [0%nat] |} ].

Definition build (top : Z) (p : ProteinIdentification) (q : list PeptideIdentification)
    (ibg : IDBoostGraph) : IDBoostGraph := {| g := cc; ccs_ := [] |}.
Definition components (ibg : IDBoostGraph) : IDBoostGraph :=
  {| g := g ibg; ccs_ := [g ibg] |}.
Definition cluster (ibg : IDBoostGraph) : IDBoostGraph := ibg.

Definition second_run : ProteinIdentification :=
  {| score_type := "q-value"; higher_score_better := false;
     prot_hits := [ {| ph_accession := "P9"; ph_score := 0.25%float |} ] |}.

Definition env0 (p : Param) : Env :=
  {| param_ := p;
     proteinIDs := [ {| score_type := ""; higher_score_better := false;
                        prot_hits := [ {| ph_accession := "P1"; ph_score := 0.0%float |} ] |};
                     second_run ];
     peptideIDs := [ {| pep_hits := [ {| pep_score := 0.9%float;
                                         pep_evidences := ["P1"] |} ] |} ];
     log := [] |}.

Definition run (target : double) (p : Param) : option (unit * Env) :=
  inferPosteriorProbabilities engine (fdr target) build build components cluster cluster
    (env0 p).

(** A single vertex: a degenerate component. *)
Definition lonely : Graph :=
  [ {| property := ProteinHitPtr 0; adjacent_vertices := [] |} ].

(** Two proteins with different scores under one protein group, and the
    peptide group below it. *)
Definition group_env : Env :=
  {| param_ := defaults_;
     proteinIDs := [ {| score_type := "Posterior Probability"; higher_score_better := true;
                        prot_hits := [ {| ph_accession := "P1"; ph_score := 0.2%float |};
                                       {| ph_accession := "P2"; ph_score := 0.7%float |} ] |} ];
     peptideIDs := [ {| pep_hits := [ {| pep_score := 0.9%float;
                                         pep_evidences := ["P1"; "P2"] |} ] |} ];
     log := [] |}.

Definition group_cc : Graph :=
  [ {| property := ProteinHitPtr 0; adjacent_vertices := [2%nat] |};
    {| property := ProteinHitPtr 1; adjacent_vertices := [2%nat] |};
    {| property := ProteinGroup; adjacent_vertices := [0%nat; 1%nat; 3%nat] |};
    {| property := PeptideCluster; adjacent_vertices := [2%nat; 4%nat] |};
    {| property := PeptideHitPtr 0 0; adjacent_vertices := [3%nat] |} ].

(** The factory and the scheduler that the default parameters give. *)
Definition mpf : MessagePasserFactory :=
  {| alpha_ := 0.1%float; beta_ := 0.001%float; gamma_ := 0.9%float; p_ := 1.0%float |}.

Definition scheduler : Scheduler :=
  {| sched_kind := PriorityScheduler; dampening_lambda := 1e-3%float;
     convergence_threshold := 1e-5%float; maximum_iterations := 4294967296 |}.

Definition group_ig : InferenceGraph :=
  concat (map (spec_factors group_env mpf group_cc) (vertices group_cc)).

(** The graph object after the three construction steps. *)
Definition ibg : IDBoostGraph :=
  cluster (components (build 1 second_run [] {| g := []; ccs_ := [] |})).

(** Two settings a user can make: both values are accepted by Param. *)
Definition fifo_params : Param :=
  setValue "loopy_belief_propagation:scheduling_type" (StringValue "fifo") defaults_.

Definition groups_only_params : Param :=
  setValue "annotate_groups_only" (StringValue "true") defaults_.

(** The environment in which a run ends, if it ends. *)
Definition final (r : option (unit * Env)) : option Env := snd <$> r.

Definition final_env (target : double) (p : Param) : Env :=
  from_option snd (env0 p) (run target p).

(** A posterior over {0,1} and one whose support is {0} only. *)
Definition posterior01 : LabeledPMF :=
  {| ordered_variables := [0%nat];
     pmf := {| first_support := [0%Z];
               table := {| data_shape := [2%nat]; flat := [0.25; 0.75]%float |} |} |}.

Definition posterior0 : LabeledPMF :=
  {| ordered_variables := [1%nat];
     pmf := {| first_support := [0%Z];
               table := {| data_shape := [1%nat]; flat := [1.0]%float |} |} |}.

End Scenario.

(* ===================================================================== *)
(** ** Relations and summaries for the further properties *)
(* ===================================================================== *)

(** A step keeps the relation [R] between the environment it starts in and
    the one it ends in. *)
Definition preserves {A} (R : Env -> Env -> Prop) (m : M A) : Prop :=
  forall env a env', m env = Some (a, env') -> R env env'.

(** What identifies a protein run apart from the scores of its hits. *)
Definition protein_identity (p : ProteinIdentification) : string * bool * list string :=
  (score_type p, higher_score_better p, map ph_accession (prot_hits p)).

(** Only the scores of the hits of [proteinIDs[0]] (and the log) differ. *)
Record scores_only (env env' : Env) : Prop := mkScoresOnly {
  so_param : param_ env' = param_ env;
  so_peptides : peptideIDs env' = peptideIDs env;
  so_tail : tail (proteinIDs env') = tail (proteinIDs env);
  so_identity : protein_identity <$> head (proteinIDs env')
                = protein_identity <$> head (proteinIDs env)
}.

(** The accessions of the hits of [proteinIDs[0]], in order. *)
Definition accessions_of (env : Env) : option (list string) :=
  (fun p => map ph_accession (prot_hits p)) <$> head (proteinIDs env).

Record hits_kept (env env' : Env) : Prop := mkHitsKept {
  hk_peptides : peptideIDs env' = peptideIDs env;
  hk_accessions : accessions_of env' = accessions_of env
}.

(** The three keys that the evaluator and the driver write. *)
Definition model_parameter (key : string) : bool :=
  String.eqb key "model_parameters:prot_prior"
  || String.eqb key "model_parameters:pep_emission"
  || String.eqb key "model_parameters:pep_spurious_emission".

Definition other_params_kept (env env' : Env) : Prop :=
  forall key, model_parameter key = false -> param_ env' !! key = param_ env !! key.

Definition log_kept (env env' : Env) : Prop := log env' = log env.

(** The log entries that the inference functors write for a component. *)
Definition inner_event (e : Event) : bool :=
  match e with
  | CallEstimatePosteriors _ _ _ => true
  | CoutSkipped => true
  | _ => false
  end.

(** A log without the entries of the functors: the calls and lines of the
    driver and of the evaluator. *)
Definition outline (l : list Event) : list Event :=
  List.filter (fun e => negb (inner_event e)) l.

(** The entry an inference functor writes for a component. *)
Definition component_event (cc : Graph) (e : Event) : Prop :=
  if (2 <=? num_vertices cc)%nat
  then exists scheduler ig vars, e = CallEstimatePosteriors scheduler ig vars
  else e = CoutSkipped.

(** The variables a factor is over. *)
Definition factor_variables (d : Dependency) : list vertex_t :=
  match d with
  | ProteinFactor _ id => [id]
  | PeptideEvidenceFactor id _ => [id]
  | SumEvidenceFactor _ _ _ pId pepId => [pId; pepId]
  | PeptideProbabilisticAdderFactor parentProteinIDs nId _ => parentProteinIDs ++ [nId]
  end.

Definition variables_in_range (fg : Graph) (st : BuilderLocals) : Prop :=
  Forall (fun d => Forall (fun x => (x < num_vertices fg)%nat) (factor_variables d)) (bigb st)
  /\ Forall (Forall (fun x => (x < num_vertices fg)%nat)) (posteriorVars st).

(** The protein hit a posterior is written to: the pointer held by the
    vertex that is the posterior's first variable, if that is a Protein. *)
Definition target (fg : Graph) (posteriorFactor : LabeledPMF) : option nat :=
  nodeId ← ordered_variables posteriorFactor !! 0%nat;
  v ← prop_at fg nodeId;
  get_ProteinHitPtr v.

(** The log outline of one evaluation of a grid point, and of the whole
    scan of the three hard-coded grids. *)
Definition evaluation_outline (alpha beta gamma : double) : list Event :=
  [CoutEvaluating alpha beta gamma; CallApplyFunctorOnCCs GraphInference].

Definition run_outline : list Event :=
  [CallSetScoreType "Posterior Probability"; CallSetHigherScoreBetter true]
  ++ (evaluation_outline 0.1 0.001 0.5 ++ evaluation_outline 0.3 0.001 0.5
      ++ evaluation_outline 0.5 0.001 0.5 ++ evaluation_outline 0.7 0.001 0.5
      ++ evaluation_outline 0.9 0.001 0.5)%float
  ++ [CoutBestParams 0 0 0; CoutRunningAgain;
      CallApplyFunctorOnCCs ExtendedGraphInference;
      CallApplyFunctorOnCCs AnnotateIndistGroups].

(** A step extends the log by entries whose outline is [es]. *)
Definition writes_outline {A} (es : list Event) (m : M A) : Prop :=
  forall env a env',
    m env = Some (a, env') -> exists l, log env' = log env ++ l /\ outline l = es.

(** The Param after the three [setValue] calls of the evaluator and of the
    driver. *)
Definition with_model_parameters (alpha beta gamma : double) (p : Param) : Param :=
  setValue "model_parameters:pep_spurious_emission" (DoubleValue beta)
    (setValue "model_parameters:pep_emission" (DoubleValue alpha)
       (setValue "model_parameters:prot_prior" (DoubleValue gamma) p)).

(** The vertex is a ProteinGroup vertex of the graph. *)
Definition is_group (fg : Graph) (u : vertex_t) : bool :=
  match prop_at fg u with
  | Some ProteinGroup => true
  | _ => false
  end.

(* ===================================================================== *)
(** ** IsoSpec.cpp: the wrapper around the IsoSpec library *)
(* ===================================================================== *)

Module IsoSpec.

(** What the wrapper hands to the library: an [Iso] made from a formula or
    from the arrays of the second [run]. *)
Inductive Iso :=
| IsoFromFormula (formula : string)
| IsoFromArrays (dimNumber : nat) (isotopeNumbers atomCounts : list Z)
    (IM IP : list (list double)).

(** What the wrapper reads from the tabulator: [confs_no()] and the arrays
    behind [masses()] and [probs()]. *)
Record Tabulator := mkTabulator {
  confs_no : Z;
  masses : list double;
  probs : list double
}.

(** The library: the generator made from an [Iso], the threshold, the
    absolute flag, tabSize and hashSize, and the tabulator made from it. *)
Definition Library := Iso -> double -> bool -> Z -> Z -> Tabulator.

(** The members of the class. *)
Record t := mkIsoSpec {
  threshold_ : double;
  absolute_ : bool;
  masses_ : list double;
  probabilities_ : list double
}.

(** The two constructors. *)
Definition new : t :=
  {| threshold_ := 0.01%float; absolute_ := false; masses_ := []; probabilities_ := [] |}.

Definition new_with (threshold : double) : t :=
  {| threshold_ := threshold; absolute_ := false; masses_ := []; probabilities_ := [] |}.

Definition getMasses (self : t) : list double := masses_ self.
Definition getProbabilities (self : t) : list double := probabilities_ self.

(** [copy(&a[0], &a[size], back_inserter(v))] into a cleared vector: the
    first [size] elements; undefined when the range is not inside the array. *)
Definition copy_range (size : Z) (a : list double) : option (list double) :=
  if ((0 <=? size) && (size <=? Z.of_nat (length a)))%Z
  then Some (take (Z.to_nat size) a)
  else None.

(** [run_(iso)]. *)
Definition run_ (library : Library) (iso : Iso) (self : t) : option t :=
  let tabSize := 1000%Z in
  let hashSize := 1000%Z in
  let tabulator := library iso (threshold_ self) (absolute_ self) tabSize hashSize in
  let size := confs_no tabulator in
  masses' ← copy_range size (masses tabulator);
  probabilities' ← copy_range size (probs tabulator);
  Some {| threshold_ := threshold_ self; absolute_ := absolute_ self;
          masses_ := masses'; probabilities_ := probabilities' |}.

(** [run(formula)]. *)
Definition run_formula (library : Library) (formula : string) (self : t) : option t :=
  run_ library (IsoFromFormula formula) self.

(** How a call of the second [run] ends. *)
Inductive Outcome :=
| Returned (self : t)
| ThrownPrecondition
| ThrownIllegalArgument
| Undefined.

(** [std::all_of] over the rows and over each row, with [p > 0.0]. *)
Definition all_positive (isotopeProbabilities : list (list double)) : bool :=
  forallb (forallb (fun p => PrimFloat.ltb 0.0%float p)) isotopeProbabilities.

(** The loop that fills [IM] and [IP]: row [i] of each vector for
    [i < dimNumber]; undefined when a vector has fewer rows. *)
Fixpoint rows (v : list (list double)) (indices : list nat)
    : option (list (list double)) :=
  match indices with
  | [] => Some []
  | i :: rest => row ← v !! i; more ← rows v rest; Some (row :: more)
  end.

(** [run(isotopeNr, atomCounts, isotopeMasses, isotopeProbabilities)].
    OPENMS_PRECONDITION (Macros.h, not in the sources at hand) is taken as a
    check that throws in a debug build ([debug = true]) and as nothing in a
    release build. *)
Definition run (library : Library) (debug : bool)
    (isotopeNr atomCounts : list Z) (isotopeMasses isotopeProbabilities : list (list double))
    (self : t) : Outcome :=
  if debug && negb ((length isotopeNr =? length atomCounts)%nat
                    && (length isotopeNr =? length isotopeMasses)%nat
                    && (length isotopeNr =? length isotopeProbabilities)%nat)
  then ThrownPrecondition
  else if negb (all_positive isotopeProbabilities) then ThrownIllegalArgument
  else
    let dimNumber := length isotopeNr in
    match rows isotopeMasses (seq 0 dimNumber), rows isotopeProbabilities (seq 0 dimNumber) with
    | Some IM, Some IP =>
        match run_ library (IsoFromArrays dimNumber isotopeNr atomCounts IM IP) self with
        | Some self' => Returned self'
        | None => Undefined
        end
    | _, _ => Undefined
    end.


(** A library double: two configurations for any input. *)
Definition two_peaks : Library :=
  fun _ _ _ _ _ => {| confs_no := 2; masses := [180.06; 181.07]%float;
                      probs := [0.92; 0.07]%float |}.

End IsoSpec.

(* ===================================================================== *)
(** ** OpenMSOSInfo and OpenMSBuildInfo *)
(* ===================================================================== *)

Module OSInfo.

Inductive OpenMS_OS := OS_UNKNOWN | OS_MACOS | OS_WINDOWS | OS_LINUX.
Inductive OpenMS_Architecture := ARCH_UNKNOWN | ARCH_32BIT | ARCH_64BIT.

(** The value of an enumerator, used as an index into the name tables. *)
Definition os_value (os : OpenMS_OS) : nat :=
  match os with OS_UNKNOWN => 0 | OS_MACOS => 1 | OS_WINDOWS => 2 | OS_LINUX => 3 end.

Definition arch_value (a : OpenMS_Architecture) : nat :=
  match a with ARCH_UNKNOWN => 0 | ARCH_32BIT => 1 | ARCH_64BIT => 2 end.

Definition OpenMS_OSNames : list string := ["unknown"; "MacOS"; "Windows"; "Linux"].
Definition OpenMS_ArchNames : list string := ["unknown"; "32 bit"; "64 bit"].

Record OpenMSOSInfo := mkOpenMSOSInfo {
  os_ : OpenMS_OS;
  os_version_ : string;
  arch_ : OpenMS_Architecture
}.

(** The default constructor. *)
Definition unknown_info : OpenMSOSInfo :=
  {| os_ := OS_UNKNOWN; os_version_ := "unknown"; arch_ := ARCH_UNKNOWN |}.

(** Reads of the name tables; [None] is a read past the end of the array. *)
Definition getOSAsString (info : OpenMSOSInfo) : option string :=
  OpenMS_OSNames !! os_value (os_ info).

Definition getArchAsString (info : OpenMSOSInfo) : option string :=
  OpenMS_ArchNames !! arch_value (arch_ info).

Definition getOSVersionAsString (info : OpenMSOSInfo) : string := os_version_ info.

(** [getBinaryArchitecture()], as a function of [sizeof(size_t)]. *)
Definition getBinaryArchitecture (bytes : Z) : option string :=
  if (bytes =? 4)%Z then OpenMS_ArchNames !! arch_value ARCH_32BIT
  else if (bytes =? 8)%Z then OpenMS_ArchNames !! arch_value ARCH_64BIT
  else OpenMS_ArchNames !! arch_value ARCH_UNKNOWN.

(** What the preprocessor and the platform decide: which macros are
    defined, what the two Windows helpers return, what QSysInfo reports. *)
Record Platform := mkPlatform {
  WIN32 : bool;
  MACH_and_APPLE : bool;
  Q_OS_MACOS : bool;
  Q_OS_UNIX : bool;
  getArchOnWin : OpenMS_Architecture;
  getWinOSVersion : string;
  productVersion : string;
  WordSize : Z
}.

(** [getOSInfo()]. *)
Definition getOSInfo (pf : Platform) : OpenMSOSInfo :=
  let info := unknown_info in
  let info :=
    if WIN32 pf then
      {| os_ := OS_WINDOWS; os_version_ := getWinOSVersion pf; arch_ := getArchOnWin pf |}
    else if MACH_and_APPLE pf then
      {| os_ := OS_MACOS; os_version_ := os_version_ info; arch_ := arch_ info |}
    else
      {| os_ := OS_LINUX; os_version_ := os_version_ info; arch_ := arch_ info |} in
  if Q_OS_MACOS pf || Q_OS_UNIX pf then
    {| os_ := os_ info; os_version_ := productVersion pf;
       arch_ := if (WordSize pf =? 32)%Z then ARCH_32BIT else ARCH_64BIT |}
  else info.

(** [OpenMSBuildInfo]: [isOpenMPEnabled()] and [getOpenMPMaxNumThreads()],
    as functions of whether _OPENMP is defined and of what
    omp_get_max_threads() returns. *)
Definition isOpenMPEnabled (OPENMP : bool) : bool := OPENMP.

Definition getOpenMPMaxNumThreads (OPENMP : bool) (omp_get_max_threads : Z) : Z :=
  if OPENMP then omp_get_max_threads else 1%Z.

End OSInfo.

(* ===================================================================== *)
(** ** Further concrete inputs *)
(* ===================================================================== *)

Module Cases.

(** Two PSM vertices joined to each other: neither has a neighbour of a
    smaller kind. *)
Definition orphan_psm : Graph :=
  [ {| property := PeptideHitPtr 0 0; adjacent_vertices := [1%nat] |};
    {| property := PeptideHitPtr 0 0; adjacent_vertices := [0%nat] |} ].

(** A protein group joined to a peptide group only. *)
Definition orphan_group : Graph :=
  [ {| property := ProteinGroup; adjacent_vertices := [1%nat] |};
    {| property := PeptideCluster; adjacent_vertices := [0%nat] |} ].

Definition empty_locals : BuilderLocals :=
  {| bigb := []; posteriorVars := []; in_ := [] |}.

(** The locals after the loop over the vertices of the group component. *)
Definition group_locals : BuilderLocals :=
  from_option id empty_locals
    (GraphInferenceFunctor.vertex_loop Scenario.group_env Scenario.mpf Scenario.group_cc
       (vertices Scenario.group_cc) empty_locals).

(** The environment after a step, if the step is defined. *)
Definition after {A} (m : M A) (env : Env) : Env := from_option snd env (m env).

(** The value a step returns, [d] if the step is undefined. *)
Definition value {A} (d : A) (m : M A) (env : Env) : A := from_option fst d (m env).


Definition evaluation : M double :=
  GridSearchEvaluator Scenario.engine (Scenario.fdr 0.3%float) Scenario.ibg
    0.3%float 0.001%float 0.5%float.

Definition run : M unit :=
  inferPosteriorProbabilities Scenario.engine (Scenario.fdr 0.1%float) Scenario.build
    Scenario.build Scenario.components Scenario.cluster Scenario.cluster.

(** No protein run at all. *)
Definition empty_env : Env :=
  {| param_ := defaults_; proteinIDs := []; peptideIDs := []; log := [] |}.

(** A graph construction that finds no component. *)
Definition no_components (ibg : IDBoostGraph) : IDBoostGraph := {| g := g ibg; ccs_ := [] |}.

Definition run_no_components : M unit :=
  inferPosteriorProbabilities Scenario.engine (Scenario.fdr 0.1%float) Scenario.build
    Scenario.build no_components Scenario.cluster Scenario.cluster.

(** Glucose-like arrays for the second [run] of the IsoSpec wrapper, and
    the same with a zero probability. *)
Definition isotopeNr : list Z := [2; 2]%Z.
Definition atomCounts : list Z := [12; 6]%Z.
Definition isotopeMasses : list (list double) :=
  [[1.0078; 2.0141]; [12.0; 13.0034]]%float.
Definition isotopeProbabilities : list (list double) :=
  [[0.9999; 0.0001]; [0.9892; 0.0108]]%float.
Definition zero_probability : list (list double) :=
  [[0.9999; 0.0001]; [1.0; 0.0]]%float.

Definition linux_qt : OSInfo.Platform :=
  {| OSInfo.WIN32 := false; OSInfo.MACH_and_APPLE := false; OSInfo.Q_OS_MACOS := false;
     OSInfo.Q_OS_UNIX := true; OSInfo.getArchOnWin := OSInfo.ARCH_UNKNOWN;
     OSInfo.getWinOSVersion := ""; OSInfo.productVersion := "22.04";
     OSInfo.WordSize := 64 |}.

End Cases.

(* ===================================================================== *)
(** ** Properties of the factor-graph builder *)
(* ===================================================================== *)

Lemma prop_at_Some (fg : Graph) (u : vertex_t) (v : Vertex) :
  fg !! u = Some v -> prop_at fg u = Some (property v).
Proof. intros H. unfold prop_at. now rewrite H. Qed.

Lemma vertex_lookup (fg : Graph) (u : vertex_t) :
  (u < num_vertices fg)%nat -> exists v, fg !! u = Some v.
Proof.
  intros H. destruct (lookup_lt_is_Some_2 fg u H) as [w Hw]. exists w. exact Hw.
Qed.

Lemma vertex_in_range (fg : Graph) (nb : vertex_t) :
  (nb <? num_vertices fg)%nat = true -> exists w, fg !! nb = Some w.
Proof. intros H. apply Nat.ltb_lt in H. now apply vertex_lookup. Qed.

(** The loop that fills [in] computes the filter of the spec. *)
Lemma neighbour_loop_filter (fg : Graph) (ui : vertex_t) (v : Vertex)
    (nbs acc : list vertex_t) :
  fg !! ui = Some v ->
  forallb (fun nb => (nb <? num_vertices fg)%nat) nbs = true ->
  GraphInferenceFunctor.neighbour_loop fg ui nbs acc
  = Some (acc ++ List.filter (lower_kind fg (which (property v))) nbs).
Proof.
  intros Hu. revert acc.
  induction nbs as [|nb rest IH]; intros acc Hok; simpl.
  - now rewrite app_nil_r.
  - apply andb_prop in Hok as [Hnb Hrest].
    destruct (vertex_in_range fg nb Hnb) as [w Hw].
    unfold lower_kind.
    rewrite (prop_at_Some fg nb w Hw), (prop_at_Some fg ui v Hu). simpl.
    rewrite (IH _ Hrest).
    destruct (which (property w) <? which (property v))%Z; simpl.
    + now rewrite <- app_assoc.
    + reflexivity.
Qed.

Lemma adjacency_ok_at (fg : Graph) (u : vertex_t) (v : Vertex) :
  adjacency_ok fg = true -> fg !! u = Some v ->
  forallb (fun nb => (nb <? num_vertices fg)%nat) (adjacent_vertices v) = true.
Proof.
  intros Hok Hu. unfold adjacency_ok in Hok.
  rewrite forallb_forall in Hok. apply Hok.
  apply list_elem_of_In. eapply list_elem_of_lookup_2. exact Hu.
Qed.

Lemma neighbour_loop_in (fg : Graph) (ui : vertex_t) (v : Vertex) :
  adjacency_ok fg = true -> fg !! ui = Some v ->
  GraphInferenceFunctor.neighbour_loop fg ui (adjacent_vertices v) [] = Some (spec_in fg ui).
Proof.
  intros Hok Hu. unfold spec_in. rewrite Hu.
  now rewrite (neighbour_loop_filter fg ui v _ [] Hu (adjacency_ok_at fg ui v Hok Hu)).
Qed.

Lemma psm_ok_at (env : Env) (fg : Graph) (u : vertex_t) (v : Vertex) (i j : nat) :
  psm_ok env fg = true -> fg !! u = Some v -> property v = PeptideHitPtr i j ->
  (exists hit, deref_PeptideHit env (i, j) = Some hit)
  /\ existsb (lower_kind fg 6) (adjacent_vertices v) = true.
Proof.
  intros Hok Hu Hp. unfold psm_ok in Hok. rewrite forallb_forall in Hok.
  assert (Hin : In v fg).
  { apply list_elem_of_In. eapply list_elem_of_lookup_2. exact Hu. }
  specialize (Hok v Hin). rewrite Hp in Hok.
  apply andb_prop in Hok as [Hd He]. split; [|exact He].
  apply bool_decide_eq_true in Hd. destruct Hd as [hit Hhit]. eauto.
Qed.

Lemma filter_existsb_cons {A} (f : A -> bool) (l : list A) :
  existsb f l = true -> exists x rest, List.filter f l = x :: rest.
Proof.
  induction l as [|a l IH]; simpl; [discriminate|].
  destruct (f a); simpl; eauto.
Qed.

(** One iteration of the loop over the vertices, against the spec's table. *)
Lemma vertex_body_spec (env : Env) (mpf : MessagePasserFactory) (fg : Graph)
    (st : BuilderLocals) (ui : vertex_t) :
  adjacency_ok fg = true -> psm_ok env fg = true ->
  (ui < num_vertices fg)%nat ->
  GraphInferenceFunctor.vertex_body env mpf fg st ui
  = Some {| bigb := bigb st ++ spec_factors env mpf fg ui;
            posteriorVars := posteriorVars st
                             ++ (if is_protein fg ui then [[ui]] else []);
            in_ := spec_in fg ui |}.
Proof.
  intros Hadj Hpsm Hlt.
  destruct (vertex_lookup fg ui Hlt) as [v Hu].
  unfold GraphInferenceFunctor.vertex_body, spec_factors, is_protein.
  rewrite (prop_at_Some fg ui v Hu), Hu. simpl.
  rewrite (neighbour_loop_in fg ui v Hadj Hu). simpl.
  destruct (property v) as [p| | |s| | |i j] eqn:Hp; simpl;
    unfold insert_dependency; rewrite ?app_nil_r; try reflexivity.
  destruct (psm_ok_at env fg ui v i j Hpsm Hu Hp) as [[hit Hhit] Hex].
  rewrite Hhit. simpl.
  assert (Hin : exists x rest, spec_in fg ui = x :: rest).
  { unfold spec_in. rewrite Hu, Hp. simpl. now apply filter_existsb_cons. }
  destruct Hin as (x & rest & Hin). rewrite Hin. simpl.
  now rewrite <- app_assoc.
Qed.

Lemma vertex_loop_spec (env : Env) (mpf : MessagePasserFactory) (fg : Graph)
    (uis : list vertex_t) (st : BuilderLocals) :
  adjacency_ok fg = true -> psm_ok env fg = true ->
  Forall (fun u => (u < num_vertices fg)%nat) uis ->
  exists st',
    GraphInferenceFunctor.vertex_loop env mpf fg uis st = Some st'
    /\ bigb st' = bigb st ++ concat (map (spec_factors env mpf fg) uis)
    /\ posteriorVars st' = posteriorVars st
                           ++ map (fun u => [u]) (List.filter (is_protein fg) uis).
Proof.
  intros Hadj Hpsm. revert st.
  induction uis as [|u rest IH]; intros st Hall; simpl.
  - exists st. now rewrite !app_nil_r.
  - inversion Hall as [|? ? Hu Hrest]; subst.
    rewrite (vertex_body_spec env mpf fg st u Hadj Hpsm Hu). simpl.
    match goal with
    | |- exists st', GraphInferenceFunctor.vertex_loop _ _ _ _ ?s = _ /\ _ =>
        destruct (IH s Hrest) as (st' & Hrun & Hb & Hp)
    end.
    exists st'. split; [exact Hrun|]. simpl in Hb, Hp.
    rewrite Hb, Hp, <- !app_assoc. split; [reflexivity|].
    now destruct (is_protein fg u).
Qed.

Lemma vertices_in_range (fg : Graph) :
  Forall (fun u => (u < num_vertices fg)%nat) (vertices fg).
Proof.
  apply Forall_forall. intros u Hu. unfold vertices in Hu.
  apply list_elem_of_In, in_seq in Hu. lia.
Qed.

(** The loop over the vertices, from the empty builder. *)
Lemma vertex_loop_builds_spec (env : Env) (mpf : MessagePasserFactory) (fg : Graph) :
  adjacency_ok fg = true ->
  psm_ok env fg = true ->
  exists st,
    GraphInferenceFunctor.vertex_loop env mpf fg (vertices fg)
      {| bigb := []; posteriorVars := []; in_ := [] |} = Some st
    /\ to_graph (bigb st) = concat (map (spec_factors env mpf fg) (vertices fg))
    /\ posteriorVars st = spec_posteriorVars fg.
Proof.
  intros Hadj Hpsm.
  destruct (vertex_loop_spec env mpf fg (vertices fg)
              {| bigb := []; posteriorVars := []; in_ := [] |} Hadj Hpsm
              (vertices_in_range fg)) as (st & Hrun & Hb & Hp).
  exists st. repeat split; assumption.
Qed.

(** C2.  In a connected component with at least two vertices (whose
    adjacency lists name vertices of the component and whose PSM vertices
    point to a peptide hit and have a neighbour of smaller kind),
    [GraphInferenceFunctor::operator()] hands to the engine exactly the
    factors of the table of spec 4.3, vertex by vertex, with [in] the
    neighbours of strictly smaller kind: a ProteinFactor for a Protein, a
    PeptideProbabilisticAdderFactor(in, u) for a ProteinGroup and for a
    PeptideGroup, a SumEvidenceFactor(number of evidences, in[0], u) and a
    PeptideEvidenceFactor(u, score) for a PSM, and nothing for any other
    kind; [posteriorVars] holds exactly the Protein vertices. *)
Theorem builder_inserts_spec_factors
    (est : Scheduler -> InferenceGraph -> list (list vertex_t) -> list LabeledPMF)
    (env : Env) (fg : Graph) (alpha beta gamma lambda threshold : double) (max_iter : Z) :
  (2 <= num_vertices fg)%nat ->
  adjacency_ok fg = true ->
  psm_ok env fg = true ->
  getDouble "model_parameters:pep_emission" env = Some (alpha, env) ->
  getDouble "model_parameters:pep_spurious_emission" env = Some (beta, env) ->
  getDouble "model_parameters:prot_prior" env = Some (gamma, env) ->
  getDouble "loopy_belief_propagation:dampening_lambda" env = Some (lambda, env) ->
  getDouble "loopy_belief_propagation:convergence_threshold" env = Some (threshold, env) ->
  getSize "loopy_belief_propagation:max_nr_iterations" env = Some (max_iter, env) ->
  let mpf := {| alpha_ := alpha; beta_ := beta; gamma_ := gamma; p_ := 1.0%float |} in
  let ig := concat (map (spec_factors env mpf fg) (vertices fg)) in
  let scheduler :=
    {| sched_kind := PriorityScheduler; dampening_lambda := lambda;
       convergence_threshold := threshold; maximum_iterations := max_iter |} in
  GraphInferenceFunctor_call est fg env
  = (emit (CallEstimatePosteriors scheduler ig (spec_posteriorVars fg)) ;;;
     for_each (est scheduler ig (spec_posteriorVars fg))
              (GraphInferenceFunctor.write_back fg)) env.
Proof.
  intros Hn Hadj Hpsm Ha Hb Hg Hl Ht Hm mpf ig scheduler.
  unfold GraphInferenceFunctor_call.
  apply Nat.leb_le in Hn. rewrite Hn.
  destruct (vertex_loop_builds_spec env mpf fg Hadj Hpsm) as (st & Hrun & Hbigb & Hvars).
  unfold bind at 1. rewrite Ha.
  unfold bind at 1. rewrite Hb.
  unfold bind at 1. rewrite Hg.
  unfold bind at 1. unfold reading at 1. fold mpf. rewrite Hrun.
  unfold bind at 1. rewrite Hl.
  unfold bind at 1. rewrite Ht.
  unfold bind at 1. rewrite Hm.
  rewrite Hbigb, Hvars. reflexivity.
Qed.

(** C10.  For a PSM vertex (kind 6) of a graph whose adjacency lists name
    vertices of the graph: when the vertex has a neighbour of strictly
    smaller kind, the loop that fills [in] ends with a non-empty [in], so the
    read of [in[0]] is in range; and the loop body as a whole is defined as
    soon as the vertex's peptide-hit pointer is valid. *)
Theorem psm_parent_access_in_range (env : Env) (mpf : MessagePasserFactory) (fg : Graph)
    (st : BuilderLocals) (ui : vertex_t) (v : Vertex) :
  fg !! ui = Some v ->
  which (property v) = 6%Z ->
  forallb (fun nb => (nb <? num_vertices fg)%nat) (adjacent_vertices v) = true ->
  existsb (lower_kind fg (which (property v))) (adjacent_vertices v) = true ->
  exists in_ in0,
    GraphInferenceFunctor.neighbour_loop fg ui (adjacent_vertices v) [] = Some in_
    /\ in_ !! 0%nat = Some in0
    /\ (is_Some (get_PeptideHitPtr (property v) ≫= deref_PeptideHit env) ->
        is_Some (GraphInferenceFunctor.vertex_body env mpf fg st ui)).
Proof.
  intros Hu Hk Hadj Hex.
  destruct (filter_existsb_cons _ _ Hex) as (in0 & rest & Hf).
  exists (in0 :: rest), in0.
  assert (Hloop : GraphInferenceFunctor.neighbour_loop fg ui (adjacent_vertices v) []
                  = Some (in0 :: rest)).
  { rewrite (neighbour_loop_filter fg ui v _ [] Hu Hadj). simpl. now rewrite Hf. }
  split; [exact Hloop|]. split; [reflexivity|].
  intros [hit Hhit].
  unfold GraphInferenceFunctor.vertex_body.
  rewrite Hu. simpl. rewrite Hloop. simpl. rewrite Hk. simpl.
  rewrite Hhit. simpl. eauto.
Qed.

(* ===================================================================== *)
(** ** Properties of the posterior write-back *)
(* ===================================================================== *)

(** What the local [posterior] holds for a well-formed posterior. *)
Lemma posterior_of_spec (p : PMF) (fs ls : Z) :
  wf_PMF p = true ->
  first_support p !! 0%nat = Some fs ->
  last_support p !! 0%nat = Some ls ->
  exists x,
    GraphInferenceFunctor.posterior_of p = Some x
    /\ (if ((fs <=? 1) && (1 <=? ls))%Z
        then flat (table p) !! Z.to_nat (1 - fs) = Some x
        else x = 0.0%float).
Proof.
  unfold GraphInferenceFunctor.posterior_of, wf_PMF, last_support.
  destruct (first_support p) as [|f [|? ?]]; try discriminate.
  destruct (data_shape (table p)) as [|n [|? ?]]; try discriminate.
  intros Hwf Hfs Hls. simpl in Hfs, Hls.
  injection Hfs as <-. injection Hls as <-. simpl.
  repeat (apply andb_prop in Hwf as [Hwf ?]).
  apply Nat.eqb_eq in Hwf.
  rewrite Z.geb_leb.
  destruct (f <=? 1)%Z eqn:Hf; simpl; [|eauto].
  destruct (1 <=? f + Z.of_nat n - 1)%Z eqn:Hl; simpl; [|eauto].
  apply Z.leb_le in Hf, Hl.
  assert (Hin : in_long (1 - f) = true).
  { unfold in_long, long_min, long_max in *.
    apply andb_true_intro.
    match goal with H : (Z.of_nat n <=? _)%Z = true |- _ => apply Z.leb_le in H end.
    split; apply Z.leb_le; lia. }
  unfold long_sub. rewrite Hin. simpl.
  assert (Hlt : (Z.to_nat (1 - f) < length (flat (table p)))%nat) by lia.
  destruct (lookup_lt_is_Some_2 _ _ Hlt) as [x Hx].
  exists x. split; exact Hx.
Qed.

Lemma update_ProteinHit_deref (env : Env) (p : nat) (h : ProteinHit)
    (f : ProteinHit -> ProteinHit) :
  deref_ProteinHit env p = Some h ->
  exists env',
    update_ProteinHit p f env = Some (tt, env')
    /\ deref_ProteinHit env' p = Some (f h).
Proof.
  unfold deref_ProteinHit, firstProteinID, update_ProteinHit.
  destruct (proteinIDs env) as [|prots rest]; simpl; [discriminate|].
  intros Hh. rewrite Hh. eexists. split; [reflexivity|].
  simpl. apply list_lookup_insert_eq. eapply lookup_lt_Some. exact Hh.
Qed.

(** C1.  One round of the write-back loop: for a well-formed posterior
    whose variable is a Protein vertex, the protein hit behind the vertex
    gets as its score the scalar [x] with [x = table[1 - first_support]] when
    [first_support <= 1 <= last_support], and [x = 0] otherwise. *)
Theorem posterior_written_back (fg : Graph) (posteriorFactor : LabeledPMF) (env : Env)
    (nodeId : vertex_t) (p : nat) (h : ProteinHit) (fs ls : Z) :
  wf_PMF (pmf posteriorFactor) = true ->
  first_support (pmf posteriorFactor) !! 0%nat = Some fs ->
  last_support (pmf posteriorFactor) !! 0%nat = Some ls ->
  ordered_variables posteriorFactor !! 0%nat = Some nodeId ->
  prop_at fg nodeId = Some (ProteinHitPtr p) ->
  deref_ProteinHit env p = Some h ->
  exists env' x,
    GraphInferenceFunctor.write_back fg posteriorFactor env = Some (tt, env')
    /\ deref_ProteinHit env' p = Some (setScore x h)
    /\ (if ((fs <=? 1) && (1 <=? ls))%Z
        then flat (table (pmf posteriorFactor)) !! Z.to_nat (1 - fs) = Some x
        else x = 0.0%float).
Proof.
  intros Hwf Hfs Hls Hnode Hv Hh.
  destruct (posterior_of_spec _ fs ls Hwf Hfs Hls) as (x & Hx & Hcase).
  destruct (update_ProteinHit_deref env p h (setScore x) Hh) as (env' & Hupd & Hd).
  exists env', x.
  split; [|split; assumption].
  unfold GraphInferenceFunctor.write_back, bind, reading.
  rewrite Hnode, Hx, Hv. simpl. exact Hupd.
Qed.

(** The visitor leaves the environment alone at any other kind of vertex. *)
Lemma write_back_other_kind (fg : Graph) (posteriorFactor : LabeledPMF) (env : Env)
    (nodeId : vertex_t) (v : IDPointer) (x : double) :
  ordered_variables posteriorFactor !! 0%nat = Some nodeId ->
  GraphInferenceFunctor.posterior_of (pmf posteriorFactor) = Some x ->
  prop_at fg nodeId = Some v ->
  which v <> 0%Z ->
  GraphInferenceFunctor.write_back fg posteriorFactor env = Some (tt, env).
Proof.
  intros Hnode Hx Hv Hk.
  unfold GraphInferenceFunctor.write_back, bind, reading.
  rewrite Hnode, Hx, Hv.
  destruct v; simpl in *; try reflexivity. congruence.
Qed.

(* ===================================================================== *)
(** ** Properties of the group annotator *)
(* ===================================================================== *)

Lemma groups_ok_at (env : Env) (fg : Graph) (u : vertex_t) (v : Vertex) :
  groups_ok env fg = true -> fg !! u = Some v ->
  match property v with
  | ProteinHitPtr p => exists h, deref_ProteinHit env p = Some h
  | ProteinGroup => existsb (is_protein fg) (adjacent_vertices v) = true
  | _ => True
  end.
Proof.
  intros Hok Hu. unfold groups_ok in Hok. rewrite forallb_forall in Hok.
  assert (Hin : In v fg).
  { apply list_elem_of_In. eapply list_elem_of_lookup_2. exact Hu. }
  specialize (Hok v Hin).
  destruct (property v); try exact I; [|exact Hok].
  apply bool_decide_eq_true in Hok. destruct Hok as [h Hh]. eauto.
Qed.

(** The inner loop: the accessions of the protein neighbours are appended
    in order, and the pointer ends at the last protein neighbour. *)
Lemma annotate_neighbours_spec (env : Env) (fg : Graph) (nbs : list vertex_t)
    (pg : ProteinGroupRecord) (ptr : option nat) :
  groups_ok env fg = true ->
  forallb (fun nb => (nb <? num_vertices fg)%nat) nbs = true ->
  exists ptr',
    annotate_neighbours env fg nbs pg ptr
    = Some ({| probability := probability pg;
               accessions := accessions pg ++ map ph_accession (proteins_of env fg nbs) |},
            ptr')
    /\ ptr' ≫= deref_ProteinHit env
       = match last (proteins_of env fg nbs) with
         | Some h => Some h
         | None => ptr ≫= deref_ProteinHit env
         end.
Proof.
  intros Hok. revert pg ptr.
  induction nbs as [|nb rest IH]; intros pg ptr Hadj; simpl.
  - exists ptr. rewrite app_nil_r. destruct pg; simpl. split; reflexivity.
  - apply andb_prop in Hadj as [Hnb Hrest].
    destruct (vertex_in_range fg nb Hnb) as [w Hw].
    pose proof (groups_ok_at env fg nb w Hok Hw) as Hw'.
    unfold proteins_of. simpl.
    rewrite (prop_at_Some fg nb w Hw). simpl.
    destruct (property w) as [p| | |s| | |i j] eqn:Hp; simpl;
      try (destruct (IH pg ptr Hrest) as (ptr' & Hrun & Hptr);
           exists ptr'; split; [exact Hrun|exact Hptr]).
    destruct Hw' as [h Hh]. rewrite Hh. simpl.
    match goal with
    | |- exists ptr', annotate_neighbours _ _ _ ?pg1 ?ptr1 = _ /\ _ =>
        destruct (IH pg1 ptr1 Hrest) as (ptr' & Hrun & Hptr)
    end.
    exists ptr'. simpl in Hrun. rewrite <- app_assoc in Hrun. simpl in Hrun.
    split; [exact Hrun|].
    rewrite Hptr. fold (proteins_of env fg rest). rewrite last_cons.
    simpl. rewrite Hh. now destruct (last (proteins_of env fg rest)).
Qed.

Lemma proteins_of_nonempty (env : Env) (fg : Graph) (nbs : list vertex_t) :
  groups_ok env fg = true ->
  existsb (is_protein fg) nbs = true ->
  exists rep, last (proteins_of env fg nbs) = Some rep.
Proof.
  intros Hok. induction nbs as [|nb rest IH]; simpl; [discriminate|].
  intros Hex. unfold proteins_of. simpl. fold (proteins_of env fg rest).
  unfold is_protein in Hex at 1. unfold prop_at in *.
  destruct (fg !! nb) as [w|] eqn:Hw; simpl in *; [|now apply IH].
  pose proof (groups_ok_at env fg nb w Hok Hw) as Hw'.
  destruct (property w); simpl in *; try now apply IH.
  destruct Hw' as [h Hh]. rewrite Hh. simpl. rewrite last_cons.
  destruct (last (proteins_of env fg rest)); eauto.
Qed.

Lemma annotate_vertex_spec (env : Env) (fg : Graph) (u : vertex_t) :
  adjacency_ok fg = true -> groups_ok env fg = true ->
  (u < num_vertices fg)%nat ->
  annotate_vertex env fg u = Some (spec_group env fg u).
Proof.
  intros Hadj Hok Hlt.
  destruct (vertex_lookup fg u Hlt) as [v Hu].
  unfold annotate_vertex, spec_group. rewrite Hu. simpl.
  pose proof (groups_ok_at env fg u v Hok Hu) as Hv.
  destruct (property v) eqn:Hp; simpl; try reflexivity.
  destruct (annotate_neighbours_spec env fg (adjacent_vertices v)
              {| probability := (-1.0)%float; accessions := [] |} None Hok
              (adjacency_ok_at fg u v Hadj Hu)) as (ptr & Hrun & Hptr).
  rewrite Hrun. simpl.
  destruct (proteins_of_nonempty env fg (adjacent_vertices v) Hok Hv) as [rep Hrep].
  rewrite Hrep in Hptr.
  fold (proteins_of env fg (adjacent_vertices v)).
  unfold adjacent_proteins. fold (proteins_of env fg (adjacent_vertices v)).
  rewrite Hrep. simpl.
  destruct ptr as [p|]; simpl in *; [|discriminate].
  rewrite Hptr. reflexivity.
Qed.

Lemma annotate_vertices_spec (env : Env) (fg : Graph) (uis : list vertex_t) :
  adjacency_ok fg = true -> groups_ok env fg = true ->
  Forall (fun u => (u < num_vertices fg)%nat) uis ->
  annotate_vertices env fg uis = Some (omap (spec_group env fg) uis).
Proof.
  intros Hadj Hok. induction uis as [|u rest IH]; intros Hall; simpl; [reflexivity|].
  inversion Hall as [|? ? Hu Hrest]; subst.
  rewrite (annotate_vertex_spec env fg u Hadj Hok Hu). simpl.
  rewrite (IH Hrest). simpl.
  now destruct (spec_group env fg u).
Qed.

(** C6, as the code has it.  In a connected component with at least two
    vertices (whose adjacency lists name vertices of the component, whose
    protein pointers are valid and whose ProteinGroup vertices each have a
    Protein neighbour) the annotator forms, for every ProteinGroup vertex
    and for no other vertex, a group record whose accession list is exactly
    the accessions of the adjacent Protein vertices, in adjacency order, and
    whose probability is the score of the last adjacent Protein vertex.
    The scores of the members are not compared. *)
Theorem annotator_forms_group_records (env : Env) (fg : Graph) :
  (2 <= num_vertices fg)%nat ->
  adjacency_ok fg = true ->
  groups_ok env fg = true ->
  AnnotateIndistGroupsFunctor env fg = Some (omap (spec_group env fg) (vertices fg))
  /\ forall u v,
       fg !! u = Some v ->
       (property v = ProteinGroup ->
        exists rep,
          last (adjacent_proteins env fg v) = Some rep
          /\ spec_group env fg u
             = Some {| probability := ph_score rep;
                       accessions := map ph_accession (adjacent_proteins env fg v) |})
       /\ (property v <> ProteinGroup -> spec_group env fg u = None).
Proof.
  intros Hn Hadj Hok. split.
  - unfold AnnotateIndistGroupsFunctor. apply Nat.leb_le in Hn. rewrite Hn.
    apply annotate_vertices_spec; auto using vertices_in_range.
  - intros u v Hu. split.
    + intros Hp. pose proof (groups_ok_at env fg u v Hok Hu) as Hv. rewrite Hp in Hv.
      destruct (proteins_of_nonempty env fg (adjacent_vertices v) Hok Hv) as [rep Hrep].
      exists rep. unfold spec_group, adjacent_proteins in *.
      fold (proteins_of env fg (adjacent_vertices v)).
      rewrite Hu. simpl. rewrite Hp, Hrep. split; reflexivity.
    + intros Hp. unfold spec_group. rewrite Hu. simpl.
      destruct (property v); try reflexivity. congruence.
Qed.

(* ===================================================================== *)
(** ** What the steps of the driver keep *)
(* ===================================================================== *)

Lemma bind_Some {A B} (m : M A) (k : A -> M B) (env : Env) (r : B * Env) :
  bind m k env = Some r ->
  exists a env1, m env = Some (a, env1) /\ k a env1 = Some r.
Proof.
  unfold bind. destruct (m env) as [[a env1]|]; [|discriminate]. eauto.
Qed.

Lemma frame_refl (env : Env) : frame env env.
Proof. split; try reflexivity. exists []. now rewrite app_nil_r. Qed.

Lemma frame_trans (e1 e2 e3 : Env) : frame e1 e2 -> frame e2 e3 -> frame e1 e3.
Proof.
  intros [T1 M1 P1 (l1 & L1 & F1)] [T2 M2 P2 (l2 & L2 & F2)]. split; try congruence.
  exists (l1 ++ l2). split; [now rewrite L2, L1, app_assoc|].
  apply Forall_app. now split.
Qed.

Lemma keeps_frame_ret {A} (a : A) : keeps_frame (ret a).
Proof. intros env x env' H. injection H as <- <-. apply frame_refl. Qed.

Lemma keeps_frame_bind {A B} (m : M A) (k : A -> M B) :
  keeps_frame m -> (forall a, keeps_frame (k a)) -> keeps_frame (bind m k).
Proof.
  intros Hm Hk env b env' H.
  apply bind_Some in H as (a & env1 & H1 & H2).
  eapply frame_trans; [eapply Hm|eapply Hk]; eassumption.
Qed.

Lemma keeps_frame_reading {A} (f : Env -> option A) : keeps_frame (reading f).
Proof.
  intros env a env' H. unfold reading in H.
  destruct (f env); [|discriminate]. injection H as <- <-. apply frame_refl.
Qed.

Lemma keeps_frame_emit (e : Event) : priority_only e -> keeps_frame (emit e).
Proof.
  intros He env a env' H. injection H as <- <-. split; try reflexivity.
  exists [e]. split; [reflexivity|]. now constructor.
Qed.

Lemma keeps_frame_setParam (key : string) (v : DataValue) : keeps_frame (setParam key v).
Proof.
  intros env a env' H. injection H as <- <-. split; try reflexivity.
  exists []. simpl. now rewrite app_nil_r.
Qed.


Lemma keeps_frame_for_each {A} (l : list A) (body : A -> M unit) :
  (forall x, keeps_frame (body x)) -> keeps_frame (for_each l body).
Proof.
  intros Hb. induction l as [|x l IH]; simpl.
  - apply keeps_frame_ret.
  - apply keeps_frame_bind; auto.
Qed.

Lemma keeps_frame_update_ProteinHit (p : nat) (f : ProteinHit -> ProteinHit) :
  keeps_frame (update_ProteinHit p f).
Proof.
  intros env a env' H. unfold update_ProteinHit in H.
  destruct (proteinIDs env) as [|prots rest] eqn:E; [discriminate|].
  destruct (prot_hits prots !! p); [|discriminate].
  injection H as <- <-. split; simpl; rewrite ?E; try reflexivity.
  exists []. now rewrite app_nil_r.
Qed.

Lemma keeps_frame_SetPosteriorVisitor (v : IDPointer) (x : double) :
  keeps_frame (SetPosteriorVisitor v x).
Proof.
  destruct v; simpl; auto using keeps_frame_ret, keeps_frame_update_ProteinHit.
Qed.

Create HintDb frame.
#[local] Hint Extern 1 (priority_only _) => solve [exact I | reflexivity] : frame.
#[local] Hint Resolve keeps_frame_ret keeps_frame_reading keeps_frame_emit
  keeps_frame_setParam keeps_frame_update_ProteinHit keeps_frame_SetPosteriorVisitor : frame.

(** Splits a sequence of steps into its steps. *)
Ltac frame_steps :=
  cbv zeta;
  repeat first
    [ solve [auto with frame]
    | apply keeps_frame_bind; [|intros ?]
    | apply keeps_frame_for_each; intros ? ].

Lemma keeps_frame_write_back (fg : Graph) (pf : LabeledPMF) :
  keeps_frame (GraphInferenceFunctor.write_back fg pf).
Proof. unfold GraphInferenceFunctor.write_back. frame_steps. Qed.

#[local] Hint Resolve keeps_frame_write_back : frame.

Section DriverProperties.

Variable estimate_posteriors :
  Scheduler -> InferenceGraph -> list (list vertex_t) -> list LabeledPMF.
Variable applyEvaluateProteinIDs : ProteinIdentification -> double.
Variable buildGraph buildGraphWithRunInfo :
  Z -> ProteinIdentification -> list PeptideIdentification -> IDBoostGraph -> IDBoostGraph.
Variable computeConnectedComponents : IDBoostGraph -> IDBoostGraph.
Variable clusterIndistProteinsAndPeptides : IDBoostGraph -> IDBoostGraph.
Variable clusterIndistProteinsAndPeptidesAndExtendGraph : IDBoostGraph -> IDBoostGraph.

Lemma keeps_frame_GraphInferenceFunctor (fg : Graph) :
  keeps_frame (GraphInferenceFunctor_call estimate_posteriors fg).
Proof.
  unfold GraphInferenceFunctor_call, getDouble, getSize.
  destruct (2 <=? num_vertices fg)%nat; frame_steps.
Qed.

Lemma keeps_frame_functor_call (f : FunctorName) (fg : Graph) :
  keeps_frame (functor_call estimate_posteriors f fg).
Proof.
  destruct f; simpl.
  - unfold runAnnotateIndistGroupsFunctor. frame_steps.
  - apply keeps_frame_GraphInferenceFunctor.
  - apply keeps_frame_GraphInferenceFunctor.
Qed.

#[local] Hint Resolve keeps_frame_functor_call : frame.

Lemma keeps_frame_applyFunctorOnCCs (ibg : IDBoostGraph) (f : FunctorName) :
  keeps_frame (applyFunctorOnCCs estimate_posteriors ibg f).
Proof. unfold applyFunctorOnCCs. frame_steps. Qed.

#[local] Hint Resolve keeps_frame_applyFunctorOnCCs : frame.

Lemma keeps_frame_GridSearchEvaluator (ibg : IDBoostGraph) (a b c : double) :
  keeps_frame (GridSearchEvaluator estimate_posteriors applyEvaluateProteinIDs ibg a b c).
Proof. unfold GridSearchEvaluator. frame_steps. Qed.

Lemma keeps_frame_GridSearch_scan (evaluator : double -> double -> double -> M double)
    (points : list ((nat * nat * nat) * (double * double * double)))
    (bestValue : double) (bestIndices : nat * nat * nat) :
  (forall a b c, keeps_frame (evaluator a b c)) ->
  keeps_frame (GridSearch_scan evaluator points bestValue bestIndices).
Proof.
  intros Hev. revert bestValue bestIndices.
  induction points as [|[idx [[a b] c]] rest IH]; intros bestValue bestIndices; simpl.
  - apply keeps_frame_ret.
  - apply keeps_frame_bind; [apply Hev|].
    intros J. destruct (PrimFloat.ltb bestValue J); apply IH.
Qed.

Lemma keeps_frame_GridSearch_evaluate (A B G : list double)
    (evaluator : double -> double -> double -> M double)
    (startValue : double) (resultIndices : nat * nat * nat) :
  (forall a b c, keeps_frame (evaluator a b c)) ->
  keeps_frame (GridSearch_evaluate A B G evaluator startValue resultIndices).
Proof. intros Hev. now apply keeps_frame_GridSearch_scan. Qed.

#[local] Hint Resolve keeps_frame_GridSearch_evaluate keeps_frame_GridSearchEvaluator : frame.

(** A run consists of the two setters and of steps that keep the frame. *)
Lemma infer_run_shape (env env' : Env) (p : ProteinIdentification)
    (rest : list ProteinIdentification) :
  proteinIDs env = p :: rest ->
  inferPosteriorProbabilities estimate_posteriors applyEvaluateProteinIDs
    buildGraph buildGraphWithRunInfo computeConnectedComponents
    clusterIndistProteinsAndPeptides clusterIndistProteinsAndPeptidesAndExtendGraph env
  = Some (tt, env') ->
  frame {| param_ := param_ env;
           proteinIDs :=
             setHigherScoreBetter true (setScoreType "Posterior Probability" p) :: rest;
           peptideIDs := peptideIDs env;
           log := (log env ++ [CallSetScoreType "Posterior Probability"])
                  ++ [CallSetHigherScoreBetter true] |} env'.
Proof.
  intros Hp Hrun. unfold inferPosteriorProbabilities in Hrun.
  apply bind_Some in Hrun as ([] & e1 & H1 & Hrun). injection H1 as <-.
  apply bind_Some in Hrun as ([] & e2 & H2 & Hrun).
  apply bind_Some in Hrun as ([] & e3 & H3 & Hrun). injection H3 as <-.
  apply bind_Some in Hrun as ([] & e4 & H4 & Hrun).
  unfold modifyFirstProteinID in H2, H4. simpl in H2, H4.
  rewrite Hp in H2. injection H2 as <-. simpl in H4. injection H4 as <-.
  cbv zeta in Hrun. cbv iota in Hrun.
  match type of Hrun with
  | ?m ?e = Some _ => assert (Hk : keeps_frame m)
  end.
  { unfold getSize. frame_steps. }
  apply Hk in Hrun. exact Hrun.
Qed.

(** Whatever the Param holds, every engine call of a run is made with the
    priority scheduler. *)
Lemma infer_always_priority (env env' : Env) :
  inferPosteriorProbabilities estimate_posteriors applyEvaluateProteinIDs
    buildGraph buildGraphWithRunInfo computeConnectedComponents
    clusterIndistProteinsAndPeptides clusterIndistProteinsAndPeptidesAndExtendGraph env
  = Some (tt, env') ->
  exists l, log env' = log env ++ l /\ Forall priority_only l.
Proof.
  intros Hrun.
  destruct (proteinIDs env) as [|p rest] eqn:Hp.
  - unfold inferPosteriorProbabilities in Hrun.
    apply bind_Some in Hrun as ([] & e1 & H1 & Hrun). injection H1 as <-.
    apply bind_Some in Hrun as ([] & e2 & H2 & Hrun).
    unfold modifyFirstProteinID in H2. simpl in H2. rewrite Hp in H2. discriminate.
  - destruct (infer_run_shape env env' p rest Hp Hrun) as [_ _ _ (l & Hl & Hall)].
    simpl in Hl. eexists. rewrite Hl, <- !app_assoc. split; [reflexivity|].
    simpl. repeat constructor. exact Hall.
Qed.

(** C9.  On a non-empty [proteinIDs], a run of [inferPosteriorProbabilities]
    first calls the two setters of [proteinIDs[0]] (every call of a functor
    and of the engine comes later in the log); when it ends, the score type
    of [proteinIDs[0]] is "Posterior Probability", its higher-score-better
    flag is true, and the elements of [proteinIDs] at index 1 and above are
    the ones of the input. *)
Theorem infer_marks_first_protein_run (env env' : Env) :
  proteinIDs env <> [] ->
  inferPosteriorProbabilities estimate_posteriors applyEvaluateProteinIDs
    buildGraph buildGraphWithRunInfo computeConnectedComponents
    clusterIndistProteinsAndPeptides clusterIndistProteinsAndPeptidesAndExtendGraph env
  = Some (tt, env') ->
  score_type <$> head (proteinIDs env') = Some "Posterior Probability"%string
  /\ higher_score_better <$> head (proteinIDs env') = Some true
  /\ tail (proteinIDs env') = tail (proteinIDs env)
  /\ exists l,
       log env' = log env ++ CallSetScoreType "Posterior Probability"
                             :: CallSetHigherScoreBetter true :: l.
Proof.
  intros Hne Hrun.
  destruct (proteinIDs env) as [|p rest] eqn:Hp; [congruence|].
  destruct (infer_run_shape env env' p rest Hp Hrun) as [Ht Hm Hpep (l & Hl & _)].
  simpl in *.
  destruct (proteinIDs env') as [|p' rest']; simpl in *; [discriminate|].
  injection Hm as Hst Hhsb. subst rest'.
  repeat split; try (simpl; congruence).
  exists l. rewrite Hl, <- !app_assoc. reflexivity.
Qed.

End DriverProperties.

(* ===================================================================== *)
(** ** The two inference functors, degenerate components *)
(* ===================================================================== *)

(** C7.  [GraphInferenceFunctor] and [ExtendedGraphInferenceFunctor] are the
    same function of the parameters, the component and the environment: the
    same loop over the vertices (so the same factor graph and the same
    [posteriorVars]), the same scheduler and engine call, and the same
    write-back of each posterior. *)
Theorem inference_functors_agree
    (est : Scheduler -> InferenceGraph -> list (list vertex_t) -> list LabeledPMF)
    (fg : Graph) :
  GraphInferenceFunctor_call est fg = ExtendedGraphInferenceFunctor_call est fg
  /\ (forall env mpf uis st,
        GraphInferenceFunctor.vertex_loop env mpf fg uis st
        = ExtendedGraphInferenceFunctor.vertex_loop env mpf fg uis st)
  /\ (forall posteriorFactor,
        GraphInferenceFunctor.write_back fg posteriorFactor
        = ExtendedGraphInferenceFunctor.write_back fg posteriorFactor).
Proof. repeat split. Qed.

(** C8.  On a connected component with fewer than two vertices, both
    inference functors only print the "Skipped" line: the Param, the
    identifications and the engine are not touched; and the annotator forms
    no group record and leaves the environment as it is. *)
Theorem degenerate_component_skipped
    (est : Scheduler -> InferenceGraph -> list (list vertex_t) -> list LabeledPMF)
    (env : Env) (fg : Graph) :
  (num_vertices fg < 2)%nat ->
  let skipped :=
    {| param_ := param_ env; proteinIDs := proteinIDs env;
       peptideIDs := peptideIDs env; log := log env ++ [CoutSkipped] |} in
  GraphInferenceFunctor_call est fg env = Some (tt, skipped)
  /\ ExtendedGraphInferenceFunctor_call est fg env = Some (tt, skipped)
  /\ AnnotateIndistGroupsFunctor env fg = Some []
  /\ runAnnotateIndistGroupsFunctor fg env = Some (tt, env).
Proof.
  intros Hn skipped.
  assert (Hguard : (2 <=? num_vertices fg)%nat = false) by (apply Nat.leb_gt; lia).
  unfold GraphInferenceFunctor_call, ExtendedGraphInferenceFunctor_call,
    runAnnotateIndistGroupsFunctor, AnnotateIndistGroupsFunctor, bind, reading.
  rewrite Hguard. repeat split.
Qed.

(* ===================================================================== *)
(** ** The code at concrete inputs *)
(* ===================================================================== *)

(** C3.  With an objective that is largest at alpha = 0.3, the scan ends
    with the result indices (1, 0, 0), the grid point (0.3, 0.001, 0.5).
    The code then reads [gamma_search[bestParams[0]]], that is, index 1 of a
    vector of length one, and [alpha_search[bestParams[2]]], that is, 0.1:
    the run is undefined. *)
Theorem rerun_reads_swapped_indices :
  (fun r => r.1.2) <$>
    GridSearch_evaluate alpha_search beta_search gamma_search
      (GridSearchEvaluator Scenario.engine (Scenario.fdr 0.3%float) Scenario.ibg)
      (-1.0)%float (0, 0, 0)%nat (Scenario.env0 defaults_)
  = Some (1, 0, 0)%nat
  /\ (alpha_search !! 1%nat, beta_search !! 0%nat, gamma_search !! 0%nat)
     = (Some 0.3%float, Some 0.001%float, Some 0.5%float)
  /\ gamma_search !! 1%nat = None
  /\ alpha_search !! 0%nat = Some 0.1%float
  /\ Scenario.run 0.3%float defaults_ = None.
Proof. vm_compute. repeat split. Qed.

(** C3, where the code happens to agree: when the objective is largest at
    the first alpha, all three indices are 0, the run ends, and its last
    engine call is the single re-run at (0.1, 0.001, 0.5), followed by the
    annotator. *)
Example rerun_at_first_grid_point :
  (fun e => (functors_applied (log e), emissions_used (log e)))
    <$> Scenario.final (Scenario.run 0.1%float defaults_)
  = Some ([GraphInference; GraphInference; GraphInference; GraphInference;
           GraphInference; ExtendedGraphInference; AnnotateIndistGroups],
          [Some 0.1; Some 0.3; Some 0.5; Some 0.7; Some 0.9; Some 0.1]%float).
Proof. vm_compute. reflexivity. Qed.

(** C4.  "fifo" is a valid value of scheduling_type and names the FIFO
    scheduler; with it, the functor still calls the engine with the priority
    scheduler. *)
Theorem scheduling_type_is_not_read :
  In "fifo"%string scheduling_type_valid_strings
  /\ configured_scheduler Scenario.fifo_params = Some FIFOScheduler
  /\ (fun r => schedules_used (log r.2))
       <$> GraphInferenceFunctor_call Scenario.engine Scenario.cc
             (Scenario.env0 Scenario.fifo_params)
     = Some [PriorityScheduler]
  /\ (fun e => schedules_used (log e))
       <$> Scenario.final (Scenario.run 0.1%float Scenario.fifo_params)
     = Some [PriorityScheduler; PriorityScheduler; PriorityScheduler;
             PriorityScheduler; PriorityScheduler; PriorityScheduler].
Proof. vm_compute. repeat split. right. left. reflexivity. Qed.

(** C5.  With annotate_groups_only set to "true" the run is the run with
    the default "false": five evaluations of the grid and the re-run call
    the engine, and the protein's score is overwritten. *)
Theorem annotate_groups_only_is_not_read :
  (getValue Scenario.groups_only_params "annotate_groups_only" ≫= toBool) = Some true
  /\ (fun e => (functors_applied (log e), length (schedules_used (log e)),
                ph_score <$> deref_ProteinHit e 0))
       <$> Scenario.final (Scenario.run 0.1%float Scenario.groups_only_params)
     = Some ([GraphInference; GraphInference; GraphInference; GraphInference;
              GraphInference; ExtendedGraphInference; AnnotateIndistGroups],
             6%nat, Some 0.1%float)
  /\ ph_score <$> deref_ProteinHit (Scenario.env0 Scenario.groups_only_params) 0
     = Some 0.0%float
  /\ log <$> Scenario.final (Scenario.run 0.1%float Scenario.groups_only_params)
     = log <$> Scenario.final (Scenario.run 0.1%float defaults_).
Proof. vm_compute. repeat split. Qed.

(** C6, as stated, fails: for a protein group whose two members have the
    scores 0.2 and 0.7 the annotator ends normally, without any check, with
    a record of probability 0.7, which is not the score of the member P1. *)
Lemma annotator_does_not_compare_scores :
  AnnotateIndistGroupsFunctor Scenario.group_env Scenario.group_cc
  = Some [ {| probability := 0.7%float; accessions := ["P1"; "P2"]%string |} ]
  /\ (prop_at Scenario.group_cc 2 = Some ProteinGroup
      /\ adjacent_vertices <$> Scenario.group_cc !! 2%nat = Some [0; 1; 3]%nat
      /\ prop_at Scenario.group_cc 0 = Some (ProteinHitPtr 0))
  /\ deref_ProteinHit Scenario.group_env 0
     = Some {| ph_accession := "P1"; ph_score := 0.2%float |}
  /\ 0.2%float <> 0.7%float.
Proof.
  repeat split; try (vm_compute; reflexivity).
  intros H. apply (f_equal (fun x => PrimFloat.ltb x 0.7%float)) in H.
  vm_compute in H. discriminate.
Qed.

(** The posterior whose support is {0} only: the score written is 0. *)
Example posterior_outside_support :
  GraphInferenceFunctor.posterior_of (pmf Scenario.posterior0) = Some 0.0%float
  /\ (fun r => ph_score <$> deref_ProteinHit r.2 1)
       <$> GraphInferenceFunctor.write_back Scenario.group_cc Scenario.posterior0
             Scenario.group_env
     = Some (Some 0.0%float).
Proof. vm_compute. split; reflexivity. Qed.

(* ===================================================================== *)
(** ** The theorems at concrete inputs *)
(* ===================================================================== *)

Lemma posterior_written_back_witness :
  exists env' x,
    GraphInferenceFunctor.write_back Scenario.group_cc Scenario.posterior01
      Scenario.group_env = Some (tt, env')
    /\ deref_ProteinHit env' 0
       = Some (setScore x {| ph_accession := "P1"; ph_score := 0.2%float |})
    /\ (if ((0 <=? 1) && (1 <=? 1))%Z
        then flat (table (pmf Scenario.posterior01)) !! Z.to_nat (1 - 0) = Some x
        else x = 0.0%float).
Proof.
  apply (posterior_written_back Scenario.group_cc Scenario.posterior01 Scenario.group_env
           0%nat 0%nat {| ph_accession := "P1"; ph_score := 0.2%float |} 0%Z 1%Z);
    reflexivity.
Defined.

Lemma builder_inserts_spec_factors_witness :
  GraphInferenceFunctor_call Scenario.engine Scenario.group_cc Scenario.group_env
  = (emit (CallEstimatePosteriors Scenario.scheduler Scenario.group_ig
             (spec_posteriorVars Scenario.group_cc)) ;;;
     for_each (Scenario.engine Scenario.scheduler Scenario.group_ig
                 (spec_posteriorVars Scenario.group_cc))
              (GraphInferenceFunctor.write_back Scenario.group_cc)) Scenario.group_env.
Proof.
  apply (builder_inserts_spec_factors Scenario.engine Scenario.group_env Scenario.group_cc
           0.1%float 0.001%float 0.9%float 1e-3%float 1e-5%float 4294967296%Z);
    solve [ simpl; lia | vm_compute; reflexivity ].
Defined.

Lemma psm_parent_access_in_range_witness :
  exists in_ in0,
    GraphInferenceFunctor.neighbour_loop Scenario.group_cc 4
      (adjacent_vertices {| property := PeptideHitPtr 0 0; adjacent_vertices := [3%nat] |}) []
    = Some in_
    /\ in_ !! 0%nat = Some in0
    /\ (is_Some (get_PeptideHitPtr
                   (property {| property := PeptideHitPtr 0 0;
                                adjacent_vertices := [3%nat] |})
                 ≫= deref_PeptideHit Scenario.group_env) ->
        is_Some (GraphInferenceFunctor.vertex_body Scenario.group_env Scenario.mpf
                   Scenario.group_cc {| bigb := []; posteriorVars := []; in_ := [] |} 4)).
Proof.
  apply (psm_parent_access_in_range Scenario.group_env Scenario.mpf Scenario.group_cc
           {| bigb := []; posteriorVars := []; in_ := [] |} 4%nat
           {| property := PeptideHitPtr 0 0; adjacent_vertices := [3%nat] |});
    reflexivity.
Defined.

Lemma annotator_forms_group_records_witness :
  AnnotateIndistGroupsFunctor Scenario.group_env Scenario.group_cc
  = Some (omap (spec_group Scenario.group_env Scenario.group_cc)
               (vertices Scenario.group_cc))
  /\ forall u v,
       Scenario.group_cc !! u = Some v ->
       (property v = ProteinGroup ->
        exists rep,
          last (adjacent_proteins Scenario.group_env Scenario.group_cc v) = Some rep
          /\ spec_group Scenario.group_env Scenario.group_cc u
             = Some {| probability := ph_score rep;
                       accessions :=
                         map ph_accession
                           (adjacent_proteins Scenario.group_env Scenario.group_cc v) |})
       /\ (property v <> ProteinGroup ->
           spec_group Scenario.group_env Scenario.group_cc u = None).
Proof.
  apply (annotator_forms_group_records Scenario.group_env Scenario.group_cc);
    solve [ simpl; lia | vm_compute; reflexivity ].
Defined.

Lemma degenerate_component_skipped_witness :
  GraphInferenceFunctor_call Scenario.engine Scenario.lonely Scenario.group_env
  = Some (tt, {| param_ := param_ Scenario.group_env;
                 proteinIDs := proteinIDs Scenario.group_env;
                 peptideIDs := peptideIDs Scenario.group_env;
                 log := log Scenario.group_env ++ [CoutSkipped] |})
  /\ ExtendedGraphInferenceFunctor_call Scenario.engine Scenario.lonely Scenario.group_env
     = Some (tt, {| param_ := param_ Scenario.group_env;
                    proteinIDs := proteinIDs Scenario.group_env;
                    peptideIDs := peptideIDs Scenario.group_env;
                    log := log Scenario.group_env ++ [CoutSkipped] |})
  /\ AnnotateIndistGroupsFunctor Scenario.group_env Scenario.lonely = Some []
  /\ runAnnotateIndistGroupsFunctor Scenario.lonely Scenario.group_env
     = Some (tt, Scenario.group_env).
Proof.
  apply (degenerate_component_skipped Scenario.engine Scenario.group_env Scenario.lonely).
  simpl. lia.
Defined.

Lemma infer_marks_first_protein_run_witness :
  proteinIDs (Scenario.env0 defaults_) <> []
  /\ (score_type <$> head (proteinIDs (Scenario.final_env 0.1%float defaults_))
      = Some "Posterior Probability"%string
      /\ higher_score_better <$> head (proteinIDs (Scenario.final_env 0.1%float defaults_))
         = Some true
      /\ tail (proteinIDs (Scenario.final_env 0.1%float defaults_))
         = tail (proteinIDs (Scenario.env0 defaults_))
      /\ exists l,
           log (Scenario.final_env 0.1%float defaults_)
           = log (Scenario.env0 defaults_)
             ++ CallSetScoreType "Posterior Probability"
                :: CallSetHigherScoreBetter true :: l).
Proof.
  assert (Hne : proteinIDs (Scenario.env0 defaults_) <> []) by discriminate.
  split; [exact Hne|].
  apply (infer_marks_first_protein_run Scenario.engine (Scenario.fdr 0.1%float)
           Scenario.build Scenario.build Scenario.components Scenario.cluster
           Scenario.cluster (Scenario.env0 defaults_)
           (Scenario.final_env 0.1%float defaults_) Hne).
  vm_compute. reflexivity.
Defined.

(* ===================================================================== *)
(** ** Further properties of the factor-graph builder *)
(* ===================================================================== *)

(** Whenever the loop that fills [in] ends, it has read every neighbour as
    a vertex of the graph and [in] is the filter of the spec. *)
Lemma neighbour_loop_result (fg : Graph) (ui : vertex_t) (v : Vertex)
    (nbs acc r : list vertex_t) :
  fg !! ui = Some v ->
  GraphInferenceFunctor.neighbour_loop fg ui nbs acc = Some r ->
  r = acc ++ List.filter (lower_kind fg (which (property v))) nbs
  /\ Forall (fun nb => (nb < num_vertices fg)%nat) nbs.
Proof.
  intros Hu. revert acc.
  induction nbs as [|nb rest IH]; intros acc H; simpl in *.
  - injection H as <-. rewrite app_nil_r. split; [reflexivity|constructor].
  - destruct (prop_at fg nb) as [w|] eqn:Hw; simpl in H; [|discriminate].
    rewrite (prop_at_Some fg ui v Hu) in H. simpl in H.
    apply IH in H as [-> Hall]. split.
    + unfold lower_kind at 2. rewrite Hw.
      destruct (which w <? which (property v))%Z; simpl;
        [now rewrite <- app_assoc | reflexivity].
    + constructor; [|exact Hall].
      unfold prop_at in Hw. destruct (fg !! nb) as [x|] eqn:Hx; [|discriminate].
      eapply lookup_lt_Some. exact Hx.
Qed.

Lemma Forall_List_filter {A} (P : A -> Prop) (f : A -> bool) (l : list A) :
  Forall P l -> Forall P (List.filter f l).
Proof.
  induction 1 as [|x l Hx Hl IH]; simpl; [constructor|].
  destruct (f x); [constructor|]; assumption.
Qed.

Lemma existsb_false_filter {A} (f : A -> bool) (l : list A) :
  existsb f l = false -> List.filter f l = [].
Proof.
  induction l as [|a l IH]; simpl; [reflexivity|].
  destruct (f a); simpl; [discriminate|exact IH].
Qed.

Lemma vertex_body_variables (env : Env) (mpf : MessagePasserFactory) (fg : Graph)
    (st st' : BuilderLocals) (ui : vertex_t) :
  GraphInferenceFunctor.vertex_body env mpf fg st ui = Some st' ->
  variables_in_range fg st -> variables_in_range fg st'.
Proof.
  unfold GraphInferenceFunctor.vertex_body. intros H [Hb Hp].
  destruct (fg !! ui) as [v|] eqn:Hu; simpl in H; [|discriminate].
  assert (Hui : (ui < num_vertices fg)%nat) by (eapply lookup_lt_Some; exact Hu).
  destruct (GraphInferenceFunctor.neighbour_loop fg ui (adjacent_vertices v) [])
    as [ins|] eqn:Hn; simpl in H; [|discriminate].
  destruct (neighbour_loop_result fg ui v _ [] ins Hu Hn) as [Hins Hadj].
  simpl in Hins.
  assert (Hin : Forall (fun x => (x < num_vertices fg)%nat) ins).
  { subst ins. now apply Forall_List_filter. }
  unfold insert_dependency in H.
  destruct (which (property v) =? 6)%Z.
  - destruct (get_PeptideHitPtr (property v) ≫= deref_PeptideHit env) as [hit|];
      simpl in H; [|discriminate].
    destruct ins as [|in0 rest]; simpl in H; [discriminate|].
    injection H as <-. split; simpl; [|exact Hp].
    inversion Hin; subst.
    repeat (apply Forall_app; split); try assumption; repeat constructor; assumption.
  - destruct (which (property v) =? 2)%Z; [|destruct (which (property v) =? 1)%Z;
      [|destruct (which (property v) =? 0)%Z]];
      injection H as <-; split; simpl; try assumption;
      repeat (apply Forall_app; split); try assumption; repeat constructor;
      try assumption;
      unfold createPeptideProbabilisticAdderFactor; simpl;
      apply Forall_app; split; try assumption; repeat constructor; assumption.
Qed.

(** X1.  Whenever the loop over the vertices ends, every variable of every
    factor it has inserted, and every variable it has recorded in
    [posteriorVars], is a vertex of the component. *)
Theorem builder_variables_are_vertices (env : Env) (mpf : MessagePasserFactory)
    (fg : Graph) (uis : list vertex_t) (st : BuilderLocals) :
  GraphInferenceFunctor.vertex_loop env mpf fg uis
    {| bigb := []; posteriorVars := []; in_ := [] |} = Some st ->
  variables_in_range fg st.
Proof.
  assert (Hgen : forall uis st0 st1,
             GraphInferenceFunctor.vertex_loop env mpf fg uis st0 = Some st1 ->
             variables_in_range fg st0 -> variables_in_range fg st1).
  { clear. intros uis. induction uis as [|u rest IH]; intros st0 st1 H Hok; simpl in H.
    - now injection H as <-.
    - destruct (GraphInferenceFunctor.vertex_body env mpf fg st0 u) as [st'|] eqn:Hb;
        simpl in H; [|discriminate].
      eapply IH; [exact H|]. eapply vertex_body_variables; eassumption. }
  intros H. eapply Hgen; [exact H|]. split; constructor.
Qed.

(** A vertex whose loop body is undefined makes the whole loop undefined. *)
Lemma vertex_loop_undefined (env : Env) (mpf : MessagePasserFactory) (fg : Graph)
    (uis : list vertex_t) (u : vertex_t) :
  In u uis ->
  (forall st, GraphInferenceFunctor.vertex_body env mpf fg st u = None) ->
  forall st, GraphInferenceFunctor.vertex_loop env mpf fg uis st = None.
Proof.
  intros Hin Hu. induction uis as [|x rest IH]; intros st; simpl; [destruct Hin|].
  destruct Hin as [->|Hin].
  - now rewrite Hu.
  - destruct (GraphInferenceFunctor.vertex_body env mpf fg st x); simpl; auto.
Qed.

Lemma vertex_is_listed (fg : Graph) (u : vertex_t) (v : Vertex) :
  fg !! u = Some v -> In u (vertices fg).
Proof.
  intros Hu. unfold vertices. apply in_seq.
  pose proof (lookup_lt_Some _ _ _ Hu) as Hlt. unfold num_vertices. lia.
Qed.

(** X2.  A PSM vertex without a neighbour of smaller kind in a component
    with at least two vertices: [in] stays empty, the read of [in[0]] is out
    of range, and the call of the functor is undefined, whatever the Param
    and the engine. *)
Theorem psm_without_parent_is_undefined
    (est : Scheduler -> InferenceGraph -> list (list vertex_t) -> list LabeledPMF)
    (env : Env) (fg : Graph) (u : vertex_t) (v : Vertex) :
  (2 <= num_vertices fg)%nat ->
  fg !! u = Some v ->
  which (property v) = 6%Z ->
  existsb (lower_kind fg 6) (adjacent_vertices v) = false ->
  GraphInferenceFunctor_call est fg env = None
  /\ ExtendedGraphInferenceFunctor_call est fg env = None.
Proof.
  intros Hn Hu Hk Hex.
  assert (Hcall : GraphInferenceFunctor_call est fg env = None).
  { unfold GraphInferenceFunctor_call. apply Nat.leb_le in Hn. rewrite Hn.
    unfold bind at 1. destruct (getDouble _ env) as [[a e1]|]; [|reflexivity].
    unfold bind at 1. destruct (getDouble _ e1) as [[b e2]|]; [|reflexivity].
    unfold bind at 1. destruct (getDouble _ e2) as [[c e3]|]; [|reflexivity].
    unfold bind at 1, reading at 1.
    rewrite (vertex_loop_undefined e3 _ fg (vertices fg) u (vertex_is_listed fg u v Hu)).
    - reflexivity.
    - intros st. unfold GraphInferenceFunctor.vertex_body. rewrite Hu. simpl.
      destruct (GraphInferenceFunctor.neighbour_loop fg u (adjacent_vertices v) [])
        as [ins|] eqn:Hl; simpl; [|reflexivity].
      destruct (neighbour_loop_result fg u v _ [] ins Hu Hl) as [-> _].
      rewrite Hk, (existsb_false_filter _ _ Hex). simpl.
      now destruct (get_PeptideHitPtr (property v) ≫= deref_PeptideHit e3). }
  split; exact Hcall.
Qed.

(* ===================================================================== *)
(** ** Further properties of the group annotator *)
(* ===================================================================== *)

Lemma annotate_neighbours_no_protein (env : Env) (fg : Graph) (nbs : list vertex_t)
    (pg pg' : ProteinGroupRecord) (ptr ptr' : option nat) :
  annotate_neighbours env fg nbs pg ptr = Some (pg', ptr') ->
  existsb (is_protein fg) nbs = false ->
  ptr' = ptr.
Proof.
  revert pg ptr. induction nbs as [|nb rest IH]; intros pg ptr H Hex; simpl in *.
  - now injection H as _ <-.
  - apply orb_false_elim in Hex as [Hnb Hrest]. unfold is_protein in Hnb.
    destruct (prop_at fg nb) as [w|]; simpl in H; [|discriminate].
    destruct w; simpl in H; try discriminate; eauto.
Qed.

Lemma annotate_vertices_undefined (env : Env) (fg : Graph) (uis : list vertex_t)
    (u : vertex_t) :
  In u uis -> annotate_vertex env fg u = None -> annotate_vertices env fg uis = None.
Proof.
  intros Hin Hu. induction uis as [|x rest IH]; simpl; [destruct Hin|].
  destruct Hin as [->|Hin].
  - now rewrite Hu.
  - rewrite (IH Hin). now destruct (annotate_vertex env fg x).
Qed.

(** X3.  A ProteinGroup vertex without a Protein neighbour in a component
    with at least two vertices: [proteinPtr] is still the null pointer when
    the score is read through it, and the call of the annotator is
    undefined. *)
Theorem group_without_protein_is_undefined (env : Env) (fg : Graph) (u : vertex_t)
    (v : Vertex) :
  (2 <= num_vertices fg)%nat ->
  fg !! u = Some v ->
  property v = ProteinGroup ->
  existsb (is_protein fg) (adjacent_vertices v) = false ->
  AnnotateIndistGroupsFunctor env fg = None
  /\ runAnnotateIndistGroupsFunctor fg env = None.
Proof.
  intros Hn Hu Hp Hex.
  assert (Hv : annotate_vertex env fg u = None).
  { unfold annotate_vertex. rewrite Hu. simpl. rewrite Hp. simpl.
    destruct (annotate_neighbours env fg (adjacent_vertices v)
                {| probability := (-1.0)%float; accessions := [] |} None)
      as [[pg ptr]|] eqn:Hl; simpl; [|reflexivity].
    now rewrite (annotate_neighbours_no_protein _ _ _ _ _ _ _ Hl Hex). }
  assert (Hf : AnnotateIndistGroupsFunctor env fg = None).
  { unfold AnnotateIndistGroupsFunctor. apply Nat.leb_le in Hn. rewrite Hn.
    eapply annotate_vertices_undefined; [|exact Hv]. eapply vertex_is_listed. exact Hu. }
  split; [exact Hf|].
  unfold runAnnotateIndistGroupsFunctor, bind, reading. now rewrite Hf.
Qed.

(* ===================================================================== *)
(** ** Further properties of the posterior write-back *)
(* ===================================================================== *)

Lemma for_each_app_Some {A} (l1 l2 : list A) (body : A -> M unit) (env env' : Env) :
  for_each (l1 ++ l2) body env = Some (tt, env') ->
  exists e1, for_each l1 body env = Some (tt, e1) /\ for_each l2 body e1 = Some (tt, env').
Proof.
  revert env. induction l1 as [|x l1 IH]; intros env H; simpl in *.
  - exists env. split; [reflexivity|exact H].
  - apply bind_Some in H as ([] & e & Hx & H).
    destruct (IH _ H) as (e1 & H1 & H2).
    exists e1. split; [|exact H2]. unfold bind. now rewrite Hx.
Qed.

Lemma update_ProteinHit_effect (p q : nat) (f : ProteinHit -> ProteinHit)
    (env env' : Env) :
  update_ProteinHit p f env = Some (tt, env') ->
  deref_ProteinHit env' q
  = if decide (p = q) then f <$> deref_ProteinHit env q else deref_ProteinHit env q.
Proof.
  unfold update_ProteinHit, deref_ProteinHit, firstProteinID. intros H.
  destruct (proteinIDs env) as [|prots rest]; [discriminate|].
  destruct (prot_hits prots !! p) as [h|] eqn:Hh; [|discriminate].
  injection H as <-. simpl.
  destruct (decide (p = q)) as [<-|Hne].
  - rewrite Hh. simpl. apply list_lookup_insert_eq. eapply lookup_lt_Some. exact Hh.
  - now apply list_lookup_insert_ne.
Qed.

(** One round of the write-back loop, read backwards. *)
Lemma write_back_step (fg : Graph) (pf : LabeledPMF) (env env' : Env) :
  GraphInferenceFunctor.write_back fg pf env = Some (tt, env') ->
  exists x,
    GraphInferenceFunctor.posterior_of (pmf pf) = Some x
    /\ match target fg pf with
       | Some p => update_ProteinHit p (setScore x) env = Some (tt, env')
       | None => env' = env
       end.
Proof.
  unfold GraphInferenceFunctor.write_back, target, bind, reading. intros H.
  destruct (ordered_variables pf !! 0%nat) as [nodeId|]; simpl in *; [|discriminate].
  destruct (GraphInferenceFunctor.posterior_of (pmf pf)) as [x|]; [|discriminate].
  destruct (prop_at fg nodeId) as [v|]; simpl in *; [|discriminate].
  exists x. split; [reflexivity|].
  destruct v; simpl in *; try (now injection H as <-). exact H.
Qed.

Lemma write_back_loop_frame (fg : Graph) (posteriorFactors : list LabeledPMF)
    (env env' : Env) (q : nat) :
  for_each posteriorFactors (GraphInferenceFunctor.write_back fg) env = Some (tt, env') ->
  Forall (fun pf => target fg pf <> Some q) posteriorFactors ->
  deref_ProteinHit env' q = deref_ProteinHit env q.
Proof.
  revert env. induction posteriorFactors as [|pf rest IH]; intros env H Hall; simpl in H.
  - now injection H as <-.
  - apply bind_Some in H as ([] & e1 & Hpf & H).
    inversion Hall as [|? ? Hq Hrest]; subst.
    rewrite (IH _ H Hrest).
    destruct (write_back_step fg pf env e1 Hpf) as (x & _ & Ht).
    destruct (target fg pf) as [p|]; [|now subst].
    rewrite (update_ProteinHit_effect p q _ _ _ Ht).
    destruct (decide (p = q)); [congruence|reflexivity].
Qed.

(** X4.  The write-back loop changes no protein hit other than those that
    the vertices of the posteriors point to. *)
Theorem write_back_leaves_other_proteins (fg : Graph) (posteriorFactors : list LabeledPMF)
    (env env' : Env) (q : nat) :
  for_each posteriorFactors (GraphInferenceFunctor.write_back fg) env = Some (tt, env') ->
  Forall (fun pf => target fg pf <> Some q) posteriorFactors ->
  deref_ProteinHit env' q = deref_ProteinHit env q.
Proof. apply write_back_loop_frame. Qed.

Lemma write_back_loop_last (fg : Graph) (before after : list LabeledPMF)
    (pf : LabeledPMF) (env env' : Env) (p : nat) (x : double) :
  for_each (before ++ pf :: after) (GraphInferenceFunctor.write_back fg) env
  = Some (tt, env') ->
  target fg pf = Some p ->
  GraphInferenceFunctor.posterior_of (pmf pf) = Some x ->
  Forall (fun pf' => target fg pf' <> Some p) after ->
  ph_score <$> deref_ProteinHit env' p = Some x.
Proof.
  intros H Ht Hx Hafter.
  apply for_each_app_Some in H as (e1 & _ & H). simpl in H.
  apply bind_Some in H as ([] & e2 & Hpf & H).
  rewrite (write_back_loop_frame fg after e2 env' p H Hafter).
  destruct (write_back_step fg pf e1 e2 Hpf) as (y & Hy & Hupd).
  rewrite Ht in Hupd. assert (y = x) by congruence. subst y.
  rewrite (update_ProteinHit_effect p p _ _ _ Hupd).
  destruct (decide (p = p)); [|congruence].
  unfold update_ProteinHit in Hupd. unfold deref_ProteinHit, firstProteinID.
  destruct (proteinIDs e1) as [|prots rest]; [discriminate|]. simpl.
  destruct (prot_hits prots !! p); [reflexivity|discriminate].
Qed.

(** X5.  After the write-back loop, a protein hit has as its score the
    posterior of the last factor whose vertex points to it. *)
Theorem protein_gets_last_posterior (fg : Graph) (before after : list LabeledPMF)
    (pf : LabeledPMF) (env env' : Env) (p : nat) (x : double) :
  for_each (before ++ pf :: after) (GraphInferenceFunctor.write_back fg) env
  = Some (tt, env') ->
  target fg pf = Some p ->
  GraphInferenceFunctor.posterior_of (pmf pf) = Some x ->
  Forall (fun pf' => target fg pf' <> Some p) after ->
  ph_score <$> deref_ProteinHit env' p = Some x.
Proof. apply write_back_loop_last. Qed.

(* ===================================================================== *)
(** ** Steps that keep a relation *)
(* ===================================================================== *)

Section Preserves.

Variable R : Env -> Env -> Prop.
Hypothesis R_refl : forall env, R env env.
Hypothesis R_trans : forall e1 e2 e3, R e1 e2 -> R e2 e3 -> R e1 e3.

Lemma preserves_ret {A} (a : A) : preserves R (ret a).
Proof. intros env x env' H. injection H as <- <-. apply R_refl. Qed.

Lemma preserves_reading {A} (f : Env -> option A) : preserves R (reading f).
Proof.
  intros env a env' H. unfold reading in H.
  destruct (f env); [|discriminate]. injection H as <- <-. apply R_refl.
Qed.

Lemma preserves_bind {A B} (m : M A) (k : A -> M B) :
  preserves R m -> (forall a, preserves R (k a)) -> preserves R (bind m k).
Proof.
  intros Hm Hk env b env' H.
  apply bind_Some in H as (a & env1 & H1 & H2).
  eapply R_trans; [eapply Hm|eapply Hk]; eassumption.
Qed.

Lemma preserves_for_each {A} (l : list A) (body : A -> M unit) :
  (forall x, preserves R (body x)) -> preserves R (for_each l body).
Proof.
  intros Hb. induction l as [|x l IH]; simpl.
  - apply preserves_ret.
  - apply preserves_bind; auto.
Qed.

End Preserves.

Lemma preserves_weaken {A} (R S : Env -> Env -> Prop) (m : M A) :
  (forall env env', R env env' -> S env env') -> preserves R m -> preserves S m.
Proof. intros HRS Hm env a env' H. apply HRS. eapply Hm. exact H. Qed.

Create HintDb preserve.

(** Splits a sequence of steps, for a relation with the given proofs of
    reflexivity and transitivity. *)
Ltac preserve_steps refl trans :=
  cbv zeta;
  repeat first
    [ solve [auto with preserve]
    | apply (preserves_ret _ refl)
    | apply (preserves_reading _ refl)
    | apply (preserves_bind _ trans); [|intros ?]
    | apply (preserves_for_each _ refl trans); intros ? ].

Lemma scores_only_refl (env : Env) : scores_only env env.
Proof. split; reflexivity. Qed.

Lemma scores_only_trans (e1 e2 e3 : Env) :
  scores_only e1 e2 -> scores_only e2 e3 -> scores_only e1 e3.
Proof. intros [] []. split; congruence. Qed.

Lemma log_kept_refl (env : Env) : log_kept env env.
Proof. reflexivity. Qed.

Lemma log_kept_trans (e1 e2 e3 : Env) : log_kept e1 e2 -> log_kept e2 e3 -> log_kept e1 e3.
Proof. unfold log_kept. congruence. Qed.

Lemma map_insert_same {A B} (f : A -> B) (g : A -> A) (l : list A) (p : nat) (h : A) :
  l !! p = Some h -> f (g h) = f h -> map f (<[p := g h]> l) = map f l.
Proof.
  intros Hl Hf. revert p Hl. induction l as [|a l IH]; intros [|p] Hl; simpl in *;
    try discriminate.
  - injection Hl as ->. now rewrite Hf.
  - now rewrite (IH p Hl).
Qed.

Lemma scores_only_emit (e : Event) : preserves scores_only (emit e).
Proof. intros env a env' H. injection H as <- <-. split; reflexivity. Qed.

Lemma scores_only_update (p : nat) (x : double) :
  preserves scores_only (update_ProteinHit p (setScore x)).
Proof.
  intros env a env' H. unfold update_ProteinHit in H.
  destruct (proteinIDs env) as [|prots rest] eqn:E; [discriminate|].
  destruct (prot_hits prots !! p) as [h|] eqn:Hh; [|discriminate].
  injection H as <- <-. split; simpl; rewrite ?E; try reflexivity.
  simpl. unfold protein_identity. simpl.
  now rewrite (map_insert_same ph_accession (setScore x) _ p h Hh).
Qed.

Lemma log_kept_update (p : nat) (f : ProteinHit -> ProteinHit) :
  preserves log_kept (update_ProteinHit p f).
Proof.
  intros env a env' H. unfold update_ProteinHit in H.
  destruct (proteinIDs env) as [|prots rest]; [discriminate|].
  destruct (prot_hits prots !! p); [|discriminate].
  now injection H as <- <-.
Qed.

Lemma scores_only_SetPosteriorVisitor (v : IDPointer) (x : double) :
  preserves scores_only (SetPosteriorVisitor v x).
Proof.
  destruct v; simpl; auto using scores_only_update.
  all: apply (preserves_ret _ scores_only_refl).
Qed.

Lemma log_kept_SetPosteriorVisitor (v : IDPointer) (x : double) :
  preserves log_kept (SetPosteriorVisitor v x).
Proof.
  destruct v; simpl; auto using log_kept_update.
  all: apply (preserves_ret _ log_kept_refl).
Qed.

#[local] Hint Resolve scores_only_emit scores_only_update log_kept_update
  scores_only_SetPosteriorVisitor log_kept_SetPosteriorVisitor : preserve.

Lemma scores_only_write_back (fg : Graph) (pf : LabeledPMF) :
  preserves scores_only (GraphInferenceFunctor.write_back fg pf).
Proof.
  unfold GraphInferenceFunctor.write_back.
  preserve_steps scores_only_refl scores_only_trans.
Qed.

Lemma log_kept_write_back (fg : Graph) (pf : LabeledPMF) :
  preserves log_kept (GraphInferenceFunctor.write_back fg pf).
Proof.
  unfold GraphInferenceFunctor.write_back.
  preserve_steps log_kept_refl log_kept_trans.
Qed.

#[local] Hint Resolve scores_only_write_back log_kept_write_back : preserve.

Lemma scores_only_inference_call
    (est : Scheduler -> InferenceGraph -> list (list vertex_t) -> list LabeledPMF)
    (fg : Graph) :
  preserves scores_only (GraphInferenceFunctor_call est fg).
Proof.
  unfold GraphInferenceFunctor_call, getDouble, getSize.
  destruct (2 <=? num_vertices fg)%nat;
    preserve_steps scores_only_refl scores_only_trans.
Qed.

Lemma scores_only_functor_call
    (est : Scheduler -> InferenceGraph -> list (list vertex_t) -> list LabeledPMF)
    (f : FunctorName) (fg : Graph) :
  preserves scores_only (functor_call est f fg).
Proof.
  destruct f; simpl.
  - unfold runAnnotateIndistGroupsFunctor.
    preserve_steps scores_only_refl scores_only_trans.
  - apply scores_only_inference_call.
  - apply scores_only_inference_call.
Qed.

(** X6.  A call of an inference functor on a component changes nothing but
    scores of hits of [proteinIDs[0]] (and the log): the Param, the peptide
    identifications, the other protein runs, and the score type, the flag
    and the accessions of the hits of [proteinIDs[0]] are as before. *)
Theorem inference_changes_scores_only
    (est : Scheduler -> InferenceGraph -> list (list vertex_t) -> list LabeledPMF)
    (fg : Graph) (env env' : Env) :
  GraphInferenceFunctor_call est fg env = Some (tt, env') ->
  scores_only env env'.
Proof. intros H. eapply scores_only_inference_call. exact H. Qed.

Lemma reading_Some {A} (f : Env -> option A) (env env' : Env) (a : A) :
  reading f env = Some (a, env') -> env' = env /\ f env = Some a.
Proof.
  unfold reading. destruct (f env); [|discriminate].
  intros H. injection H as <- <-. split; reflexivity.
Qed.

(** The entry an inference functor writes for a component. *)
Lemma inference_call_event
    (est : Scheduler -> InferenceGraph -> list (list vertex_t) -> list LabeledPMF)
    (fg : Graph) (env env' : Env) :
  GraphInferenceFunctor_call est fg env = Some (tt, env') ->
  exists e, log env' = log env ++ [e] /\ component_event fg e.
Proof.
  unfold GraphInferenceFunctor_call, component_event, getDouble, getSize.
  destruct (2 <=? num_vertices fg)%nat.
  - intros H.
    do 7 (let Hr := fresh "Hr" in
          apply bind_Some in H as (? & ? & Hr & H);
          apply reading_Some in Hr as [-> _]; cbv zeta in H).
    apply bind_Some in H as ([] & e1 & He & H). injection He as <-.
    apply (preserves_for_each _ log_kept_refl log_kept_trans) in H;
      [|intros pf; apply log_kept_write_back].
    unfold log_kept in H. simpl in H. eauto 6.
  - intros H. injection H as <-. simpl. eauto.
Qed.


(* ===================================================================== *)
(** ** Further properties of the evaluator and of the driver *)
(* ===================================================================== *)

Lemma hits_kept_refl (env : Env) : hits_kept env env.
Proof. split; reflexivity. Qed.

Lemma hits_kept_trans (e1 e2 e3 : Env) : hits_kept e1 e2 -> hits_kept e2 e3 -> hits_kept e1 e3.
Proof. intros [] []. split; congruence. Qed.

Lemma scores_only_hits_kept (env env' : Env) : scores_only env env' -> hits_kept env env'.
Proof.
  intros [Hp Hpep Ht Hi]. split; [exact Hpep|]. unfold accessions_of.
  destruct (head (proteinIDs env')), (head (proteinIDs env)); simpl in *;
    try discriminate; [|reflexivity].
  injection Hi as _ _ ->. reflexivity.
Qed.

Lemma hits_kept_emit (e : Event) : preserves hits_kept (emit e).
Proof. intros env a env' H. injection H as <- <-. split; reflexivity. Qed.

Lemma hits_kept_setParam (key : string) (v : DataValue) : preserves hits_kept (setParam key v).
Proof. intros env a env' H. injection H as <- <-. split; reflexivity. Qed.

Lemma hits_kept_modify (f : ProteinIdentification -> ProteinIdentification) :
  (forall p, prot_hits (f p) = prot_hits p) ->
  preserves hits_kept (modifyFirstProteinID f).
Proof.
  intros Hf env a env' H. unfold modifyFirstProteinID in H.
  destruct (proteinIDs env) as [|p rest] eqn:E; [discriminate|].
  injection H as <- <-. split; [reflexivity|].
  unfold accessions_of. simpl. rewrite E. simpl. now rewrite Hf.
Qed.

Lemma other_params_kept_refl (env : Env) : other_params_kept env env.
Proof. intros key _. reflexivity. Qed.

Lemma other_params_kept_trans (e1 e2 e3 : Env) :
  other_params_kept e1 e2 -> other_params_kept e2 e3 -> other_params_kept e1 e3.
Proof. intros H1 H2 key Hk. now rewrite (H2 key Hk), (H1 key Hk). Qed.

Lemma scores_only_other_params (env env' : Env) :
  scores_only env env' -> other_params_kept env env'.
Proof. intros [Hp _ _ _] key _. now rewrite Hp. Qed.

Lemma other_params_kept_emit (e : Event) : preserves other_params_kept (emit e).
Proof. intros env a env' H. injection H as <- <-. intros key _. reflexivity. Qed.

Lemma other_params_kept_setParam (key : string) (v : DataValue) :
  model_parameter key = true -> preserves other_params_kept (setParam key v).
Proof.
  intros Hkey env a env' H. injection H as <- <-. intros k Hk. simpl.
  unfold setValue. apply lookup_insert_ne. intros ->. congruence.
Qed.

Lemma outline_app (l1 l2 : list Event) : outline (l1 ++ l2) = outline l1 ++ outline l2.
Proof. unfold outline. apply List.filter_app. Qed.

Lemma writes_outline_ret {A} (a : A) : writes_outline [] (ret a).
Proof.
  intros env x env' H. injection H as <- <-. exists []. now rewrite app_nil_r.
Qed.

Lemma writes_outline_quiet {A} (m : M A) : preserves log_kept m -> writes_outline [] m.
Proof.
  intros Hm env a env' H. apply Hm in H. unfold log_kept in H.
  exists []. now rewrite app_nil_r.
Qed.

Lemma writes_outline_emit (e : Event) : writes_outline (outline [e]) (emit e).
Proof. intros env a env' H. injection H as <- <-. now exists [e]. Qed.

Lemma writes_outline_bind {A B} (es1 es2 : list Event) (m : M A) (k : A -> M B) :
  writes_outline es1 m -> (forall a, writes_outline es2 (k a)) ->
  writes_outline (es1 ++ es2) (bind m k).
Proof.
  intros Hm Hk env b env' H.
  apply bind_Some in H as (a & e1 & H1 & H2).
  destruct (Hm _ _ _ H1) as (l1 & L1 & O1).
  destruct (Hk a _ _ _ H2) as (l2 & L2 & O2).
  exists (l1 ++ l2). rewrite L2, L1, <- app_assoc, outline_app, O1, O2.
  split; reflexivity.
Qed.

Lemma writes_outline_for_each {A} (l : list A) (body : A -> M unit) :
  (forall x, writes_outline [] (body x)) -> writes_outline [] (for_each l body).
Proof.
  intros Hb. induction l as [|x l IH]; simpl.
  - apply writes_outline_ret.
  - apply (writes_outline_bind [] []); auto.
Qed.

Lemma log_kept_setParam (key : string) (v : DataValue) : preserves log_kept (setParam key v).
Proof. intros env a env' H. now injection H as <- <-. Qed.

Lemma log_kept_modify (f : ProteinIdentification -> ProteinIdentification) :
  preserves log_kept (modifyFirstProteinID f).
Proof.
  intros env a env' H. unfold modifyFirstProteinID in H.
  destruct (proteinIDs env); [discriminate|]. now injection H as <- <-.
Qed.

Lemma scan_result_indices (evaluator : double -> double -> double -> M double)
    (points : list ((nat * nat * nat) * (double * double * double)))
    (bestValue : double) (bestIndices : nat * nat * nat) (env env' : Env)
    (r : double * (nat * nat * nat)) :
  GridSearch_scan evaluator points bestValue bestIndices env = Some (r, env') ->
  In r.2 (bestIndices :: map fst points).
Proof.
  revert bestValue bestIndices env.
  induction points as [|[idx [[a b] c]] rest IH]; intros bestValue bestIndices env H;
    simpl in H.
  - injection H as <- _. now left.
  - apply bind_Some in H as (J & e1 & _ & H).
    destruct (PrimFloat.ltb bestValue J); apply IH in H; simpl in *; tauto.
Qed.

Section DriverFurther.

Variable estimate_posteriors :
  Scheduler -> InferenceGraph -> list (list vertex_t) -> list LabeledPMF.
Variable applyEvaluateProteinIDs : ProteinIdentification -> double.
Variable buildGraph buildGraphWithRunInfo :
  Z -> ProteinIdentification -> list PeptideIdentification -> IDBoostGraph -> IDBoostGraph.
Variable computeConnectedComponents : IDBoostGraph -> IDBoostGraph.
Variable clusterIndistProteinsAndPeptides : IDBoostGraph -> IDBoostGraph.
Variable clusterIndistProteinsAndPeptidesAndExtendGraph : IDBoostGraph -> IDBoostGraph.

Lemma scores_only_applyFunctorOnCCs (ibg : IDBoostGraph) (f : FunctorName) :
  preserves scores_only (applyFunctorOnCCs estimate_posteriors ibg f).
Proof.
  unfold applyFunctorOnCCs.
  apply (preserves_bind _ scores_only_trans); [apply scores_only_emit|intros _].
  apply (preserves_for_each _ scores_only_refl scores_only_trans).
  intros fg. apply scores_only_functor_call.
Qed.

Lemma writes_outline_functor_call (f : FunctorName) (fg : Graph) :
  writes_outline [] (functor_call estimate_posteriors f fg).
Proof.
  assert (Hinf : writes_outline [] (GraphInferenceFunctor_call estimate_posteriors fg)).
  { intros env [] env' H.
    destruct (inference_call_event _ _ _ _ H) as (e & He & Hev).
    exists [e]. split; [exact He|].
    unfold component_event in Hev.
    destruct (2 <=? num_vertices fg)%nat.
    - destruct Hev as (s & ig & vars & ->). reflexivity.
    - subst e. reflexivity. }
  destruct f; simpl; try exact Hinf.
  unfold runAnnotateIndistGroupsFunctor. apply writes_outline_quiet.
  apply (preserves_bind _ log_kept_trans);
    [apply (preserves_reading _ log_kept_refl)|intros _; apply (preserves_ret _ log_kept_refl)].
Qed.

Lemma writes_outline_applyFunctorOnCCs (ibg : IDBoostGraph) (f : FunctorName) :
  writes_outline [CallApplyFunctorOnCCs f] (applyFunctorOnCCs estimate_posteriors ibg f).
Proof.
  unfold applyFunctorOnCCs.
  apply (writes_outline_bind [CallApplyFunctorOnCCs f] []).
  - apply (writes_outline_emit (CallApplyFunctorOnCCs f)).
  - intros _. apply writes_outline_for_each. intros fg. apply writes_outline_functor_call.
Qed.

Lemma GridSearchEvaluator_effect (ibg : IDBoostGraph) (alpha beta gamma J : double)
    (env env' : Env) :
  GridSearchEvaluator estimate_posteriors applyEvaluateProteinIDs ibg alpha beta gamma env
  = Some (J, env') ->
  param_ env' = with_model_parameters alpha beta gamma (param_ env)
  /\ applyEvaluateProteinIDs <$> firstProteinID env' = Some J
  /\ hits_kept env env'.
Proof.
  unfold GridSearchEvaluator. intros H.
  apply bind_Some in H as ([] & e1 & H1 & H). injection H1 as <-.
  apply bind_Some in H as ([] & e2 & H2 & H). injection H2 as <-.
  apply bind_Some in H as ([] & e3 & H3 & H). injection H3 as <-.
  apply bind_Some in H as ([] & e4 & H4 & H). injection H4 as <-.
  apply bind_Some in H as ([] & e5 & H5 & H).
  apply bind_Some in H as (prots & e6 & H6 & H).
  apply reading_Some in H6 as [-> Hprots]. injection H as <- <-.
  pose proof (scores_only_applyFunctorOnCCs _ _ _ _ _ H5) as Hso.
  split; [|split].
  - rewrite (so_param _ _ Hso). reflexivity.
  - now rewrite Hprots.
  - apply scores_only_hits_kept in Hso. destruct Hso as [Hp Ha]. split; assumption.
Qed.

(** X8.  An evaluation of a grid point that ends has written the three
    model parameters into [param_] (other keys are as before), and the
    objective it returns is the one of [proteinIDs[0]] as the inference pass
    has left it; peptide identifications and protein accessions are kept. *)
Theorem evaluator_sets_model_parameters (ibg : IDBoostGraph) (alpha beta gamma J : double)
    (env env' : Env) :
  GridSearchEvaluator estimate_posteriors applyEvaluateProteinIDs ibg alpha beta gamma env
  = Some (J, env') ->
  param_ env' = with_model_parameters alpha beta gamma (param_ env)
  /\ applyEvaluateProteinIDs <$> firstProteinID env' = Some J
  /\ hits_kept env env'.
Proof. apply GridSearchEvaluator_effect. Qed.

Lemma hits_kept_GridSearchEvaluator (ibg : IDBoostGraph) (a b c : double) :
  preserves hits_kept
    (GridSearchEvaluator estimate_posteriors applyEvaluateProteinIDs ibg a b c).
Proof. intros env J env' H. now apply GridSearchEvaluator_effect in H. Qed.

Lemma with_model_parameters_other (a b c : double) (p : Param) (key : string) :
  model_parameter key = false -> with_model_parameters a b c p !! key = p !! key.
Proof.
  intros Hk. unfold with_model_parameters, setValue.
  rewrite !lookup_insert_ne; [reflexivity|..]; intros <-; discriminate.
Qed.

Lemma other_params_kept_GridSearchEvaluator (ibg : IDBoostGraph) (a b c : double) :
  preserves other_params_kept
    (GridSearchEvaluator estimate_posteriors applyEvaluateProteinIDs ibg a b c).
Proof.
  intros env J env' H. apply GridSearchEvaluator_effect in H as [Hp _].
  intros key Hk. rewrite Hp. now apply with_model_parameters_other.
Qed.

Lemma writes_outline_GridSearchEvaluator (ibg : IDBoostGraph) (a b c : double) :
  writes_outline (evaluation_outline a b c)
    (GridSearchEvaluator estimate_posteriors applyEvaluateProteinIDs ibg a b c).
Proof.
  unfold GridSearchEvaluator.
  apply (writes_outline_bind [CoutEvaluating a b c] [CallApplyFunctorOnCCs GraphInference]);
    [apply (writes_outline_emit (CoutEvaluating a b c))|intros _].
  apply (writes_outline_bind [] [CallApplyFunctorOnCCs GraphInference]);
    [apply writes_outline_quiet, log_kept_setParam|intros _].
  apply (writes_outline_bind [] [CallApplyFunctorOnCCs GraphInference]);
    [apply writes_outline_quiet, log_kept_setParam|intros _].
  apply (writes_outline_bind [] [CallApplyFunctorOnCCs GraphInference]);
    [apply writes_outline_quiet, log_kept_setParam|intros _].
  apply (writes_outline_bind [CallApplyFunctorOnCCs GraphInference] []);
    [apply writes_outline_applyFunctorOnCCs|intros _].
  apply (writes_outline_bind [] []);
    [apply writes_outline_quiet, (preserves_reading _ log_kept_refl)|intros prots].
  apply writes_outline_ret.
Qed.

Lemma preserves_scan (R : Env -> Env -> Prop)
    (evaluator : double -> double -> double -> M double)
    (points : list ((nat * nat * nat) * (double * double * double)))
    (bestValue : double) (bestIndices : nat * nat * nat) :
  (forall env, R env env) ->
  (forall e1 e2 e3, R e1 e2 -> R e2 e3 -> R e1 e3) ->
  (forall a b c, preserves R (evaluator a b c)) ->
  preserves R (GridSearch_scan evaluator points bestValue bestIndices).
Proof.
  intros Hrefl Htrans Hev. revert bestValue bestIndices.
  induction points as [|[idx [[a b] c]] rest IH]; intros bestValue bestIndices; simpl.
  - now apply preserves_ret.
  - apply (preserves_bind _ Htrans); [apply Hev|].
    intros J. destruct (PrimFloat.ltb bestValue J); apply IH.
Qed.

Lemma writes_outline_scan (ibg : IDBoostGraph)
    (points : list ((nat * nat * nat) * (double * double * double)))
    (bestValue : double) (bestIndices : nat * nat * nat) :
  writes_outline
    (concat (map (fun pt => evaluation_outline pt.2.1.1 pt.2.1.2 pt.2.2) points))
    (GridSearch_scan (GridSearchEvaluator estimate_posteriors applyEvaluateProteinIDs ibg)
       points bestValue bestIndices).
Proof.
  revert bestValue bestIndices.
  induction points as [|[idx [[a b] c]] rest IH]; intros bestValue bestIndices; simpl.
  - apply writes_outline_ret.
  - apply (writes_outline_bind (evaluation_outline a b c));
      [apply writes_outline_GridSearchEvaluator|].
    intros J. destruct (PrimFloat.ltb bestValue J); apply IH.
Qed.

(** A run that ends, taken apart: the two setters, the scan of the grid,
    whose result indices are (0, 0, 0), the three writes of the parameters at
    these indices, and the two last passes. *)
Lemma infer_run_inversion (env env' : Env) :
  inferPosteriorProbabilities estimate_posteriors applyEvaluateProteinIDs
    buildGraph buildGraphWithRunInfo computeConnectedComponents
    clusterIndistProteinsAndPeptides clusterIndistProteinsAndPeptidesAndExtendGraph env
  = Some (tt, env') ->
  exists e1 ibg r e2 e3 e4,
    (emit (CallSetScoreType "Posterior Probability") ;;;
     modifyFirstProteinID (setScoreType "Posterior Probability") ;;;
     emit (CallSetHigherScoreBetter true) ;;;
     modifyFirstProteinID (setHigherScoreBetter true)) env = Some (tt, e1)
    /\ GridSearch_evaluate alpha_search beta_search gamma_search
         (GridSearchEvaluator estimate_posteriors applyEvaluateProteinIDs ibg)
         (-1.0)%float (0, 0, 0)%nat e1 = Some (r, e2)
    /\ r.2 = (0, 0, 0)%nat
    /\ (emit (CoutBestParams 0 0 0) ;;;
        emit CoutRunningAgain ;;;
        setParam "model_parameters:prot_prior" (DoubleValue 0.5%float) ;;;
        setParam "model_parameters:pep_emission" (DoubleValue 0.1%float) ;;;
        setParam "model_parameters:pep_spurious_emission" (DoubleValue 0.001%float)) e2
       = Some (tt, e3)
    /\ applyFunctorOnCCs estimate_posteriors ibg ExtendedGraphInference e3 = Some (tt, e4)
    /\ applyFunctorOnCCs estimate_posteriors ibg AnnotateIndistGroups e4 = Some (tt, env').
Proof.
  intros H. unfold inferPosteriorProbabilities in H.
  apply bind_Some in H as ([] & a1 & H1 & H).
  apply bind_Some in H as ([] & a2 & H2 & H).
  apply bind_Some in H as ([] & a3 & H3 & H).
  apply bind_Some in H as ([] & a4 & H4 & H).
  cbv zeta in H. cbv iota in H.
  apply bind_Some in H as (top & a5 & H5 & H).
  unfold getSize in H5. apply reading_Some in H5 as [-> _].
  apply bind_Some in H as (ibg & a6 & H6 & H).
  apply reading_Some in H6 as [-> _].
  apply bind_Some in H as (r & e2 & Hscan & H).
  apply bind_Some in H as ([] & b1 & Hb1 & H).
  apply bind_Some in H as (bestGamma & b2 & Hg & H).
  apply reading_Some in Hg as [-> Hg].
  apply bind_Some in H as (bestBeta & b3 & Hb & H).
  apply reading_Some in Hb as [-> Hb].
  apply bind_Some in H as (bestAlpha & b4 & Ha & H).
  apply reading_Some in Ha as [-> Ha].
  assert (Hr : r.2 = (0, 0, 0)%nat).
  { pose proof (scan_result_indices _ _ _ _ _ _ _ Hscan) as Hin.
    destruct r as [J [[i j] k]]. simpl in *.
    destruct Hin as [Hin|[Hin|[Hin|[Hin|[Hin|[Hin|[]]]]]]];
      injection Hin as <- <- <-; try reflexivity; discriminate Hg. }
  destruct r as [J [[i j] k]]. simpl in *. injection Hr as -> -> ->.
  simpl in Hg, Hb, Ha. injection Hg as <-. injection Hb as <-. injection Ha as <-.
  apply bind_Some in H as ([] & c1 & Hc1 & H).
  apply bind_Some in H as ([] & c2 & Hc2 & H).
  apply bind_Some in H as ([] & c3 & Hc3 & H).
  apply bind_Some in H as ([] & c4 & Hc4 & H).
  apply bind_Some in H as ([] & e4 & Hext & H).
  eexists a4, _, (J, (0, 0, 0)%nat), e2, c4, e4.
  split; [|split; [exact Hscan|split; [reflexivity|split; [|split; [exact Hext|exact H]]]]].
  - unfold bind. rewrite H1, H2, H3. exact H4.
  - unfold bind. rewrite Hb1, Hc1, Hc2, Hc3. exact Hc4.
Qed.

#[local] Hint Resolve hits_kept_emit hits_kept_setParam other_params_kept_emit
  log_kept_setParam log_kept_modify : preserve.

Lemma with_model_parameters_same (a b c : double) (p q : Param) (key : string) :
  model_parameter key = true ->
  with_model_parameters a b c p !! key = with_model_parameters a b c q !! key.
Proof.
  unfold model_parameter, with_model_parameters, setValue. intros Hk.
  apply orb_prop in Hk as [Hk|Hk]; [apply orb_prop in Hk as [Hk|Hk]|];
    apply String.eqb_eq in Hk; subst key.
  - rewrite !(lookup_insert_ne _ "model_parameters:pep_spurious_emission"%string)
      by discriminate.
    rewrite !(lookup_insert_ne _ "model_parameters:pep_emission"%string) by discriminate.
    now rewrite !lookup_insert_eq.
  - rewrite !(lookup_insert_ne _ "model_parameters:pep_spurious_emission"%string)
      by discriminate.
    now rewrite !lookup_insert_eq.
  - now rewrite !lookup_insert_eq.
Qed.

Lemma prologue_effect (env e1 : Env) :
  (emit (CallSetScoreType "Posterior Probability") ;;;
   modifyFirstProteinID (setScoreType "Posterior Probability") ;;;
   emit (CallSetHigherScoreBetter true) ;;;
   modifyFirstProteinID (setHigherScoreBetter true)) env = Some (tt, e1) ->
  hits_kept env e1 /\ param_ e1 = param_ env
  /\ log e1 = log env ++ [CallSetScoreType "Posterior Probability";
                          CallSetHigherScoreBetter true].
Proof.
  unfold bind, emit, modifyFirstProteinID. simpl.
  destruct (proteinIDs env) as [|p rest] eqn:E; [discriminate|].
  intros H. injection H as <-. simpl. split; [|split].
  - split; [reflexivity|]. unfold accessions_of. simpl. now rewrite E.
  - reflexivity.
  - now rewrite <- app_assoc.
Qed.

Lemma rerun_parameters_effect (e2 e3 : Env) :
  (emit (CoutBestParams 0 0 0) ;;;
   emit CoutRunningAgain ;;;
   setParam "model_parameters:prot_prior" (DoubleValue 0.5%float) ;;;
   setParam "model_parameters:pep_emission" (DoubleValue 0.1%float) ;;;
   setParam "model_parameters:pep_spurious_emission" (DoubleValue 0.001%float)) e2
  = Some (tt, e3) ->
  hits_kept e2 e3
  /\ param_ e3 = with_model_parameters 0.1%float 0.001%float 0.5%float (param_ e2)
  /\ log e3 = log e2 ++ [CoutBestParams 0 0 0; CoutRunningAgain].
Proof.
  unfold bind, emit, setParam. simpl. intros H. injection H as <-. simpl.
  split; [split; reflexivity|]. split; [reflexivity|]. now rewrite <- app_assoc.
Qed.

Lemma run_effect (env env' : Env) :
  inferPosteriorProbabilities estimate_posteriors applyEvaluateProteinIDs
    buildGraph buildGraphWithRunInfo computeConnectedComponents
    clusterIndistProteinsAndPeptides clusterIndistProteinsAndPeptidesAndExtendGraph env
  = Some (tt, env') ->
  hits_kept env env'
  /\ param_ env' = with_model_parameters 0.1%float 0.001%float 0.5%float (param_ env)
  /\ exists l, log env' = log env ++ l /\ outline l = run_outline.
Proof.
  intros H.
  destruct (infer_run_inversion env env' H)
    as (e1 & ibg & r & e2 & e3 & e4 & Hpro & Hscan & Hr & Hre & Hext & Hann).
  destruct (prologue_effect _ _ Hpro) as (K1 & P1 & L1).
  destruct (rerun_parameters_effect _ _ Hre) as (K3 & P3 & L3).
  pose proof (scores_only_applyFunctorOnCCs _ _ _ _ _ Hext) as S4.
  pose proof (scores_only_applyFunctorOnCCs _ _ _ _ _ Hann) as S5.
  unfold GridSearch_evaluate in Hscan.
  pose proof (preserves_scan hits_kept _ _ _ _ hits_kept_refl hits_kept_trans
                (hits_kept_GridSearchEvaluator ibg) _ _ _ Hscan) as K2.
  pose proof (preserves_scan other_params_kept _ _ _ _ other_params_kept_refl
                other_params_kept_trans (other_params_kept_GridSearchEvaluator ibg)
                _ _ _ Hscan) as O2.
  destruct (writes_outline_scan ibg _ _ _ _ _ _ Hscan) as (l2 & L2 & Out2).
  destruct (writes_outline_applyFunctorOnCCs _ _ _ _ _ Hext) as (l4 & L4 & Out4).
  destruct (writes_outline_applyFunctorOnCCs _ _ _ _ _ Hann) as (l5 & L5 & Out5).
  split; [|split].
  - repeat (eapply hits_kept_trans; [eassumption|]).
    eapply hits_kept_trans; apply scores_only_hits_kept; eassumption.
  - rewrite (so_param _ _ S5), (so_param _ _ S4), P3.
    apply map_eq. intros key. destruct (model_parameter key) eqn:Hk.
    + now apply with_model_parameters_same.
    + rewrite !with_model_parameters_other by exact Hk.
      rewrite (O2 key Hk). now rewrite P1.
  - eexists. rewrite L5, L4, L3, L2, L1, <- !app_assoc. split; [reflexivity|].
    rewrite !outline_app, Out2, Out4, Out5. reflexivity.
Qed.

(** X9.  A run that ends has added no protein hit, removed none and renamed
    none: the accessions of the hits of [proteinIDs[0]] are the ones of the
    input, in order, and the peptide identifications are unchanged. *)
Theorem run_keeps_hits (env env' : Env) :
  inferPosteriorProbabilities estimate_posteriors applyEvaluateProteinIDs
    buildGraph buildGraphWithRunInfo computeConnectedComponents
    clusterIndistProteinsAndPeptides clusterIndistProteinsAndPeptidesAndExtendGraph env
  = Some (tt, env') ->
  peptideIDs env' = peptideIDs env
  /\ accessions_of env' = accessions_of env.
Proof. intros H. apply run_effect in H as [[Hp Ha] _]. now split. Qed.



(** X12.  On an empty [proteinIDs] the run is undefined: the first
    statement reads [proteinIDs[0]]. *)
Theorem run_on_empty_input_is_undefined (env : Env) :
  proteinIDs env = [] ->
  inferPosteriorProbabilities estimate_posteriors applyEvaluateProteinIDs
    buildGraph buildGraphWithRunInfo computeConnectedComponents
    clusterIndistProteinsAndPeptides clusterIndistProteinsAndPeptidesAndExtendGraph env
  = None.
Proof.
  intros H. unfold inferPosteriorProbabilities, bind, emit, modifyFirstProteinID.
  simpl. now rewrite H.
Qed.

Lemma ltb_irrefl (x : float) : PrimFloat.ltb x x = false.
Proof.
  rewrite ltb_spec. unfold SFltb, SFcompare.
  destruct (Prim2SF x) as [s|s| |s m e]; try reflexivity.
  - destruct s; reflexivity.
  - destruct s; rewrite Z.compare_refl, Pos.compare_cont_refl; reflexivity.
Qed.

Lemma bind_eq {A B} (m : M A) (k : A -> M B) (env e1 : Env) (a : A) :
  m env = Some (a, e1) -> bind m k env = k a e1.
Proof. intros H. unfold bind. now rewrite H. Qed.

Lemma schedules_used_app (l1 l2 : list Event) :
  schedules_used (l1 ++ l2) = schedules_used l1 ++ schedules_used l2.
Proof. apply omap_app. Qed.

Lemma applyFunctorOnCCs_no_components (ibg : IDBoostGraph) (f : FunctorName) :
  ccs_ ibg = [] ->
  applyFunctorOnCCs estimate_posteriors ibg f
  = (emit (CallApplyFunctorOnCCs f) ;;; ret tt).
Proof. intros H. unfold applyFunctorOnCCs. rewrite H. reflexivity. Qed.

Lemma evaluator_no_components (ibg : IDBoostGraph) (a b c : double) (env : Env)
    (p : ProteinIdentification) (rest : list ProteinIdentification) :
  ccs_ ibg = [] ->
  proteinIDs env = p :: rest ->
  exists env',
    GridSearchEvaluator estimate_posteriors applyEvaluateProteinIDs ibg a b c env
    = Some (applyEvaluateProteinIDs p, env')
    /\ proteinIDs env' = p :: rest
    /\ schedules_used (log env') = schedules_used (log env).
Proof.
  intros Hcc Hp. unfold GridSearchEvaluator.
  unfold bind at 1. simpl. unfold bind at 1. simpl.
  unfold bind at 1. simpl. unfold bind at 1. simpl.
  rewrite (applyFunctorOnCCs_no_components _ _ Hcc).
  unfold bind, reading, firstProteinID, ret. simpl. rewrite Hp. simpl.
  eexists. split; [reflexivity|]. simpl. split; [reflexivity|].
  rewrite !schedules_used_app. simpl. now rewrite !app_nil_r.
Qed.

Lemma scan_no_components (ibg : IDBoostGraph)
    (points : list ((nat * nat * nat) * (double * double * double)))
    (bestValue : double) (bestIndices : nat * nat * nat) (env : Env)
    (p : ProteinIdentification) (rest : list ProteinIdentification) :
  ccs_ ibg = [] ->
  proteinIDs env = p :: rest ->
  exists r env',
    GridSearch_scan (GridSearchEvaluator estimate_posteriors applyEvaluateProteinIDs ibg)
      points bestValue bestIndices env = Some (r, env')
    /\ proteinIDs env' = p :: rest
    /\ schedules_used (log env') = schedules_used (log env)
    /\ (r.2 = bestIndices \/ Some r.2 = head (map fst points))
    /\ (PrimFloat.ltb bestValue (applyEvaluateProteinIDs p) = false -> r.2 = bestIndices).
Proof.
  intros Hcc. revert bestValue bestIndices env.
  induction points as [|[idx [[a b] c]] pts IH]; intros bestValue bestIndices env Hp; simpl.
  - exists (bestValue, bestIndices), env. repeat split; auto.
  - destruct (evaluator_no_components ibg a b c env p rest Hcc Hp) as (e1 & He & Hp1 & Hs1).
    rewrite (bind_eq _ _ _ _ _ He).
    destruct (PrimFloat.ltb bestValue (applyEvaluateProteinIDs p)) eqn:Hlt.
    + destruct (IH (applyEvaluateProteinIDs p) idx e1 Hp1) as (r & e2 & Hr & Hp2 & Hs2 & _ & Hkeep).
      exists r, e2. split; [exact Hr|]. split; [exact Hp2|]. split; [congruence|].
      rewrite (Hkeep (ltb_irrefl _)). split; [now right|discriminate].
    + destruct (IH bestValue bestIndices e1 Hp1) as (r & e2 & Hr & Hp2 & Hs2 & _ & Hkeep).
      exists r, e2. split; [exact Hr|]. split; [exact Hp2|]. split; [congruence|].
      rewrite (Hkeep Hlt). split; [now left|reflexivity].
Qed.

(** X13.  On an identification graph without connected components (and a
    non-empty [proteinIDs], a readable top_PSMs) the run ends: the engine is
    never called and [proteinIDs] is the input with the score type and the
    flag of its first element set. *)
Theorem run_without_components (env : Env) (p : ProteinIdentification)
    (rest : list ProteinIdentification) (top : Z) :
  proteinIDs env = p :: rest ->
  getValue (param_ env) "top_PSMs" = Some (IntValue top) ->
  (0 <= top)%Z ->
  ccs_ (clusterIndistProteinsAndPeptidesAndExtendGraph
          (computeConnectedComponents
             (buildGraphWithRunInfo top
                (setHigherScoreBetter true (setScoreType "Posterior Probability" p))
                (peptideIDs env) {| g := []; ccs_ := [] |}))) = [] ->
  exists env',
    inferPosteriorProbabilities estimate_posteriors applyEvaluateProteinIDs
      buildGraph buildGraphWithRunInfo computeConnectedComponents
      clusterIndistProteinsAndPeptides clusterIndistProteinsAndPeptidesAndExtendGraph env
    = Some (tt, env')
    /\ proteinIDs env'
       = setHigherScoreBetter true (setScoreType "Posterior Probability" p) :: rest
    /\ schedules_used (log env') = schedules_used (log env).
Proof.
  intros Hp Htop Hpos Hcc. unfold inferPosteriorProbabilities.
  unfold bind at 1. simpl. unfold bind at 1. unfold modifyFirstProteinID at 1. simpl.
  rewrite Hp. unfold bind at 1. simpl. unfold bind at 1. simpl.
  unfold bind at 1, getSize, reading at 1. simpl. rewrite Htop. simpl.
  apply Z.leb_le in Hpos. rewrite Hpos.
  unfold bind at 1, reading at 1. simpl.
  match goal with
  | |- exists env', bind (GridSearch_evaluate _ _ _ (GridSearchEvaluator _ _ ?ibg) _ _) _ ?e
                    = _ /\ _ =>
      destruct (scan_no_components ibg (grid_points alpha_search beta_search gamma_search)
                  (-1.0)%float (0, 0, 0)%nat e
                  (setHigherScoreBetter true (setScoreType "Posterior Probability" p)) rest
                  Hcc eq_refl) as ([J idx] & e2 & Hscan & Hp2 & Hs2 & Hidx & _)
  end.
  unfold GridSearch_evaluate. rewrite (bind_eq _ _ _ _ _ Hscan).
  assert (Hzero : idx = (0, 0, 0)%nat).
  { simpl in Hidx. destruct Hidx as [Hi|Hi]; [exact Hi|]. now injection Hi as ->. }
  subst idx.
  rewrite !applyFunctorOnCCs_no_components by exact Hcc.
  unfold bind, emit, reading, setParam, ret. simpl.
  eexists. split; [reflexivity|]. simpl. split; [exact Hp2|].
  rewrite !schedules_used_app, Hs2. simpl. rewrite !schedules_used_app. simpl.
  now rewrite !app_nil_r.
Qed.

End DriverFurther.

(* ===================================================================== *)
(** ** Group records are never empty; a second pass changes nothing *)
(* ===================================================================== *)

Lemma annotate_neighbours_nonempty (env : Env) (fg : Graph) (nbs : list vertex_t)
    (pg pg' : ProteinGroupRecord) (ptr ptr' : option nat) :
  annotate_neighbours env fg nbs pg ptr = Some (pg', ptr') ->
  (ptr <> None -> accessions pg <> []) ->
  ptr' <> None -> accessions pg' <> [].
Proof.
  revert pg ptr. induction nbs as [|nb rest IH]; intros pg ptr H Hinv; simpl in H.
  - injection H as <- <-. exact Hinv.
  - destruct (prop_at fg nb) as [w|]; simpl in H; [|discriminate].
    destruct (which w =? 0)%Z.
    + destruct (get_ProteinHitPtr w) as [p|]; simpl in H; [|discriminate].
      destruct (deref_ProteinHit env p) as [hit|]; simpl in H; [|discriminate].
      eapply IH; [exact H|]. simpl. intros _ Hnil.
      apply app_eq_nil in Hnil as [_ Hnil]. discriminate.
    + eapply IH; eassumption.
Qed.

Lemma annotate_vertex_record (env : Env) (fg : Graph) (u : vertex_t)
    (r : option ProteinGroupRecord) :
  annotate_vertex env fg u = Some r ->
  match r with
  | Some pg => prop_at fg u = Some ProteinGroup /\ accessions pg <> []
  | None => prop_at fg u <> Some ProteinGroup
  end.
Proof.
  unfold annotate_vertex, prop_at. intros H.
  destruct (fg !! u) as [v|]; simpl in *; [|discriminate].
  destruct (property v) eqn:Hp; simpl in H;
    try (injection H as <-; intros E; discriminate E).
  destruct (annotate_neighbours env fg (adjacent_vertices v)
              {| probability := (-1.0)%float; accessions := [] |} None)
    as [[pg ptr]|] eqn:Hl; simpl in H; [|discriminate].
  destruct ptr as [p|]; simpl in H; [|discriminate].
  destruct (deref_ProteinHit env p) as [hit|]; simpl in H; [|discriminate].
  injection H as <-. split; [reflexivity|]. simpl.
  apply (annotate_neighbours_nonempty _ _ _ _ _ _ _ Hl); [|discriminate].
  intros Hc. now contradiction Hc.
Qed.

Lemma annotate_vertices_records (env : Env) (fg : Graph) (uis : list vertex_t)
    (recs : list ProteinGroupRecord) :
  annotate_vertices env fg uis = Some recs ->
  length recs = length (List.filter (is_group fg) uis)
  /\ Forall (fun pg => accessions pg <> []) recs.
Proof.
  revert recs. induction uis as [|u rest IH]; intros recs H; simpl in H.
  - injection H as <-. split; [reflexivity|constructor].
  - destruct (annotate_vertex env fg u) as [r|] eqn:Hu; simpl in H; [|discriminate].
    destruct (annotate_vertices env fg rest) as [rs|]; simpl in H; [|discriminate].
    injection H as <-. destruct (IH rs eq_refl) as [Hlen Hall].
    apply annotate_vertex_record in Hu. simpl. unfold is_group at 1.
    destruct r as [pg|]; simpl.
    + destruct Hu as [-> Hne]. simpl. split; [now rewrite Hlen|now constructor].
    + split; [|exact Hall].
      destruct (prop_at fg u) as [[]|]; simpl; try exact Hlen. congruence.
Qed.

(** X19.  Whenever the annotator ends on a component with at least two
    vertices, it has formed exactly one record per ProteinGroup vertex, and
    no record has an empty accession list. *)
Theorem group_records_are_never_empty (env : Env) (fg : Graph)
    (recs : list ProteinGroupRecord) :
  (2 <= num_vertices fg)%nat ->
  AnnotateIndistGroupsFunctor env fg = Some recs ->
  length recs = length (List.filter (is_group fg) (vertices fg))
  /\ Forall (fun pg => accessions pg <> []) recs.
Proof.
  intros Hn H. unfold AnnotateIndistGroupsFunctor in H.
  apply Nat.leb_le in Hn. rewrite Hn in H.
  exact (annotate_vertices_records env fg _ recs H).
Qed.

(* ===================================================================== *)
(** ** A second pass of an inference functor *)
(* ===================================================================== *)

Lemma vertex_body_peptides (env env' : Env) (mpf : MessagePasserFactory) (fg : Graph)
    (st : BuilderLocals) (ui : vertex_t) :
  peptideIDs env' = peptideIDs env ->
  GraphInferenceFunctor.vertex_body env' mpf fg st ui
  = GraphInferenceFunctor.vertex_body env mpf fg st ui.
Proof.
  intros Hp. unfold GraphInferenceFunctor.vertex_body.
  assert (Hd : deref_PeptideHit env' = deref_PeptideHit env).
  { unfold deref_PeptideHit. now rewrite Hp. }
  now rewrite Hd.
Qed.

Lemma vertex_loop_peptides (env env' : Env) (mpf : MessagePasserFactory) (fg : Graph)
    (uis : list vertex_t) (st : BuilderLocals) :
  peptideIDs env' = peptideIDs env ->
  GraphInferenceFunctor.vertex_loop env' mpf fg uis st
  = GraphInferenceFunctor.vertex_loop env mpf fg uis st.
Proof.
  intros Hp. revert st. induction uis as [|u rest IH]; intros st; simpl; [reflexivity|].
  rewrite (vertex_body_peptides env env' mpf fg st u Hp).
  destruct (GraphInferenceFunctor.vertex_body env mpf fg st u); simpl; auto.
Qed.

(** Reads one parameter in two calls that start from the same Param. *)
Ltac read_twice HA HB Hp :=
  let RA := fresh "RA" in
  let RB := fresh "RB" in
  apply bind_Some in HA as (? & ? & RA & HA); apply reading_Some in RA as [-> RA];
  apply bind_Some in HB as (? & ? & RB & HB); apply reading_Some in RB as [-> RB];
  rewrite Hp, RA in RB; injection RB as <-; clear RA; cbv zeta in HA, HB.

(** Two calls on the same component from environments with the same Param
    and the same peptide identifications write back the same posteriors. *)
Lemma two_calls_same_posteriors
    (est : Scheduler -> InferenceGraph -> list (list vertex_t) -> list LabeledPMF)
    (fg : Graph) (envA envB eA eB : Env) :
  (2 <= num_vertices fg)%nat ->
  param_ envB = param_ envA ->
  peptideIDs envB = peptideIDs envA ->
  GraphInferenceFunctor_call est fg envA = Some (tt, eA) ->
  GraphInferenceFunctor_call est fg envB = Some (tt, eB) ->
  exists pfs ev,
    (emit ev ;;; for_each pfs (GraphInferenceFunctor.write_back fg)) envA = Some (tt, eA)
    /\ (emit ev ;;; for_each pfs (GraphInferenceFunctor.write_back fg)) envB = Some (tt, eB).
Proof.
  intros Hn Hp Hpep HA HB.
  unfold GraphInferenceFunctor_call, getDouble, getSize in HA, HB.
  apply Nat.leb_le in Hn. rewrite Hn in HA, HB.
  read_twice HA HB Hp. read_twice HA HB Hp. read_twice HA HB Hp.
  apply bind_Some in HA as (st & ? & RA & HA). apply reading_Some in RA as [-> RA].
  apply bind_Some in HB as (st' & ? & RB & HB). apply reading_Some in RB as [-> RB].
  rewrite (vertex_loop_peptides envA envB _ _ _ _ Hpep), RA in RB. injection RB as <-.
  cbv zeta in HA, HB.
  read_twice HA HB Hp. read_twice HA HB Hp. read_twice HA HB Hp.
  eauto.
Qed.

Lemma last_occurrence {A} (P : A -> Prop) (l : list A) :
  (forall x, Decision (P x)) ->
  Forall (fun x => ~ P x) l
  \/ exists before x after, l = before ++ x :: after /\ P x /\ Forall (fun y => ~ P y) after.
Proof.
  intros Hdec. induction l as [|a l IH].
  - left. constructor.
  - destruct IH as [Hnone|(before & x & after & -> & Hx & Hafter)].
    + destruct (Hdec a) as [Ha|Ha].
      * right. exists [], a, l. auto.
      * left. now constructor.
    + right. exists (a :: before), x, after. auto.
Qed.

Lemma loop_keeps_identity (fg : Graph) (pfs : list LabeledPMF) (env env' : Env) :
  for_each pfs (GraphInferenceFunctor.write_back fg) env = Some (tt, env') ->
  scores_only env env'.
Proof.
  apply (preserves_for_each _ scores_only_refl scores_only_trans).
  intros pf. apply scores_only_write_back.
Qed.

Lemma accession_at (env env' : Env) (q : nat) :
  scores_only env env' ->
  ph_accession <$> deref_ProteinHit env' q = ph_accession <$> deref_ProteinHit env q.
Proof.
  intros [_ _ _ Hid]. unfold deref_ProteinHit, firstProteinID.
  rewrite <- !head_lookup.
  destruct (head (proteinIDs env')) as [p'|], (head (proteinIDs env)) as [p|];
    simpl in *; try discriminate; [|reflexivity].
  injection Hid as _ _ Hacc.
  rewrite <- !list_lookup_fmap.
  change (map ph_accession (prot_hits p') !! q = map ph_accession (prot_hits p) !! q).
  now rewrite Hacc.
Qed.

(** Running the same write-back loop on the state it has produced changes
    no protein hit. *)
Lemma loop_twice (fg : Graph) (pfs : list LabeledPMF) (envA envB eA eB : Env) (q : nat) :
  for_each pfs (GraphInferenceFunctor.write_back fg) envA = Some (tt, eA) ->
  for_each pfs (GraphInferenceFunctor.write_back fg) envB = Some (tt, eB) ->
  proteinIDs envB = proteinIDs eA ->
  deref_ProteinHit eB q = deref_ProteinHit eA q.
Proof.
  intros HA HB Hsame.
  assert (HBA : deref_ProteinHit envB q = deref_ProteinHit eA q).
  { unfold deref_ProteinHit, firstProteinID. now rewrite Hsame. }
  destruct (last_occurrence (fun pf => target fg pf = Some q) pfs)
    as [Hnone|(before & pf & after & -> & Hpf & Hafter)].
  - intros pf. apply _.
  - rewrite <- HBA. eapply write_back_loop_frame; eassumption.
  - pose proof (loop_keeps_identity _ _ _ _ HB) as Hso.
    pose proof (accession_at envB eB q Hso) as Hacc. rewrite HBA in Hacc.
    assert (Hx : exists x, GraphInferenceFunctor.posterior_of (pmf pf) = Some x).
    { apply for_each_app_Some in HA as (e1 & _ & HA). simpl in HA.
      apply bind_Some in HA as ([] & e2 & Hstep & _).
      destruct (write_back_step fg pf e1 e2 Hstep) as (x & Hx & _). eauto. }
    destruct Hx as [x Hx].
    pose proof (write_back_loop_last fg before after pf envA eA q x HA Hpf Hx Hafter) as SA.
    pose proof (write_back_loop_last fg before after pf envB eB q x HB Hpf Hx Hafter) as SB.
    destruct (deref_ProteinHit eB q) as [[accB sB]|], (deref_ProteinHit eA q) as [[accA sA]|];
      simpl in *; try discriminate.
    congruence.
Qed.

Lemma same_hits (env env' : Env) :
  scores_only env env' ->
  (forall q, deref_ProteinHit env' q = deref_ProteinHit env q) ->
  proteinIDs env' = proteinIDs env.
Proof.
  intros [_ _ Ht Hid] Hq. unfold deref_ProteinHit, firstProteinID in Hq.
  destruct (proteinIDs env') as [|p' rest'], (proteinIDs env) as [|p rest];
    simpl in *; try discriminate; [reflexivity|].
  subst rest'. f_equal. injection Hid as Hst Hhsb _.
  assert (Hhits : prot_hits p' = prot_hits p) by (apply list_eq; exact Hq).
  destruct p', p. simpl in *. congruence.
Qed.

(** X20.  A second call of an inference functor on the same component,
    right after the first, changes nothing but the log: the same factor graph
    goes to the engine and the same scores are written again. *)
Theorem second_pass_changes_nothing
    (est : Scheduler -> InferenceGraph -> list (list vertex_t) -> list LabeledPMF)
    (fg : Graph) (env e1 e2 : Env) :
  GraphInferenceFunctor_call est fg env = Some (tt, e1) ->
  GraphInferenceFunctor_call est fg e1 = Some (tt, e2) ->
  proteinIDs e2 = proteinIDs e1
  /\ param_ e2 = param_ e1
  /\ peptideIDs e2 = peptideIDs e1.
Proof.
  intros H1 H2.
  pose proof (scores_only_inference_call est fg _ _ _ H1) as S1.
  pose proof (scores_only_inference_call est fg _ _ _ H2) as S2.
  split; [|split; [apply (so_param _ _ S2)|apply (so_peptides _ _ S2)]].
  destruct (le_lt_dec 2 (num_vertices fg)) as [Hn|Hn].
  - destruct (two_calls_same_posteriors est fg env e1 e1 e2 Hn (so_param _ _ S1)
                (so_peptides _ _ S1) H1 H2) as (pfs & ev & HA & HB).
    apply bind_Some in HA as ([] & a & Ha & HA). injection Ha as <-.
    apply bind_Some in HB as ([] & b & Hb & HB). injection Hb as <-.
    apply same_hits; [exact S2|].
    intros q. eapply loop_twice; [exact HA|exact HB|reflexivity].
  - unfold GraphInferenceFunctor_call in H2.
    assert (Hg : (2 <=? num_vertices fg)%nat = false) by (apply Nat.leb_gt; lia).
    rewrite Hg in H2. now injection H2 as <-.
Qed.

(* ===================================================================== *)
(** ** Properties of the IsoSpec wrapper *)
(* ===================================================================== *)

Lemma all_positive_false (ps : list (list double)) (row : list double) (p : double) :
  In row ps -> In p row -> PrimFloat.ltb 0.0%float p = false ->
  IsoSpec.all_positive ps = false.
Proof.
  intros Hrow Hp Hlt. unfold IsoSpec.all_positive.
  match goal with |- ?b = false => destruct b eqn:Hall; [|reflexivity] end.
  rewrite forallb_forall in Hall. specialize (Hall row Hrow).
  rewrite forallb_forall in Hall. specialize (Hall p Hp). congruence.
Qed.

Lemma copy_range_length (size : Z) (a r : list double) :
  IsoSpec.copy_range size a = Some r -> Z.of_nat (length r) = size.
Proof.
  unfold IsoSpec.copy_range.
  destruct ((0 <=? size) && (size <=? Z.of_nat (length a)))%Z eqn:H; [|discriminate].
  intros E. injection E as <-. apply andb_prop in H as [H0 H1].
  apply Z.leb_le in H0, H1. rewrite length_take. lia.
Qed.

Lemma run__result (library : IsoSpec.Library) (iso : IsoSpec.Iso) (self self' : IsoSpec.t) :
  IsoSpec.run_ library iso self = Some self' ->
  length (IsoSpec.masses_ self') = length (IsoSpec.probabilities_ self')
  /\ IsoSpec.threshold_ self' = IsoSpec.threshold_ self
  /\ IsoSpec.absolute_ self' = IsoSpec.absolute_ self.
Proof.
  unfold IsoSpec.run_. cbv zeta. intros H.
  destruct (IsoSpec.copy_range _ (IsoSpec.masses _)) as [m|] eqn:Hm; simpl in H;
    [|discriminate].
  destruct (IsoSpec.copy_range _ (IsoSpec.probs _)) as [p|] eqn:Hp; simpl in H;
    [|discriminate].
  injection H as <-. simpl.
  apply copy_range_length in Hm, Hp. split; [lia|]. split; reflexivity.
Qed.


(** X14.  The second [run] throws IllegalArgument as soon as one isotope
    probability is not greater than zero (a zero, a negative number, a NaN),
    before anything is handed to the library; in a debug build, provided the
    four vectors have the same size. *)
Theorem run_rejects_nonpositive_probability (library : IsoSpec.Library) (debug : bool)
    (isotopeNr atomCounts : list Z) (isotopeMasses isotopeProbabilities : list (list double))
    (self : IsoSpec.t) (row : list double) (p : double) :
  (debug = true ->
   length isotopeNr = length atomCounts
   /\ length isotopeNr = length isotopeMasses
   /\ length isotopeNr = length isotopeProbabilities) ->
  In row isotopeProbabilities ->
  In p row ->
  PrimFloat.ltb 0.0%float p = false ->
  IsoSpec.run library debug isotopeNr atomCounts isotopeMasses isotopeProbabilities self
  = IsoSpec.ThrownIllegalArgument.
Proof.
  intros Hpre Hrow Hp Hlt. unfold IsoSpec.run.
  rewrite (all_positive_false _ row p Hrow Hp Hlt). simpl.
  destruct debug; simpl; [|reflexivity].
  destruct (Hpre eq_refl) as (-> & E2 & E3). rewrite <- E2, <- E3.
  now rewrite !Nat.eqb_refl.
Qed.

(** X15.  When the second [run] returns, every isotope probability was
    greater than zero, the stored masses and probabilities have the same
    length, and the threshold and the absolute flag are as before. *)
Theorem run_result_is_parallel (library : IsoSpec.Library) (debug : bool)
    (isotopeNr atomCounts : list Z) (isotopeMasses isotopeProbabilities : list (list double))
    (self self' : IsoSpec.t) :
  IsoSpec.run library debug isotopeNr atomCounts isotopeMasses isotopeProbabilities self
  = IsoSpec.Returned self' ->
  IsoSpec.all_positive isotopeProbabilities = true
  /\ length (IsoSpec.getMasses self') = length (IsoSpec.getProbabilities self')
  /\ IsoSpec.threshold_ self' = IsoSpec.threshold_ self
  /\ IsoSpec.absolute_ self' = IsoSpec.absolute_ self.
Proof.
  unfold IsoSpec.run. intros H.
  destruct (debug && _); [discriminate|].
  destruct (IsoSpec.all_positive isotopeProbabilities); simpl in H; [|discriminate].
  split; [reflexivity|].
  destruct (IsoSpec.rows isotopeMasses _) as [IM|]; [|discriminate].
  destruct (IsoSpec.rows isotopeProbabilities _) as [IP|]; [|discriminate].
  destruct (IsoSpec.run_ library _ self) as [s|] eqn:Hrun; [|discriminate].
  injection H as <-. now apply run__result in Hrun.
Qed.


(* ===================================================================== *)
(** ** Properties of OpenMSOSInfo *)
(* ===================================================================== *)

(** X17.  Whatever the build and the platform, the operating system that
    [getOSInfo()] reports is read inside the name table and is one of
    "MacOS", "Windows" and "Linux", never "unknown". *)
Theorem reported_os_is_known (pf : OSInfo.Platform) :
  exists s,
    OSInfo.getOSAsString (OSInfo.getOSInfo pf) = Some s
    /\ (s = "MacOS" \/ s = "Windows" \/ s = "Linux")%string.
Proof.
  unfold OSInfo.getOSInfo, OSInfo.getOSAsString.
  destruct (OSInfo.WIN32 pf), (OSInfo.MACH_and_APPLE pf),
    (OSInfo.Q_OS_MACOS pf || OSInfo.Q_OS_UNIX pf); simpl; eauto.
Qed.

(** X18.  The architecture that [getOSInfo()] reports is "unknown" exactly
    when neither Q_OS_MACOS nor Q_OS_UNIX is defined and, on Windows,
    [getArchOnWin()] has returned ARCH_UNKNOWN. *)
Theorem reported_arch_unknown_iff (pf : OSInfo.Platform) :
  OSInfo.getArchAsString (OSInfo.getOSInfo pf) = Some "unknown"%string
  <-> (OSInfo.Q_OS_MACOS pf || OSInfo.Q_OS_UNIX pf = false
       /\ (OSInfo.WIN32 pf = true -> OSInfo.getArchOnWin pf = OSInfo.ARCH_UNKNOWN)).
Proof.
  unfold OSInfo.getOSInfo, OSInfo.getArchAsString.
  destruct (OSInfo.Q_OS_MACOS pf || OSInfo.Q_OS_UNIX pf); simpl.
  - destruct (OSInfo.WordSize pf =? 32)%Z; simpl; split;
      try discriminate; intros [H _]; discriminate.
  - destruct (OSInfo.WIN32 pf); simpl.
    + destruct (OSInfo.getArchOnWin pf); simpl; split; try discriminate; auto.
      * intros [_ H]. specialize (H eq_refl). discriminate.
      * intros [_ H]. specialize (H eq_refl). discriminate.
    + destruct (OSInfo.MACH_and_APPLE pf); simpl; split; auto;
        intros _; split; [reflexivity|discriminate| reflexivity|discriminate].
Qed.

(* ===================================================================== *)
(** ** The further theorems at concrete inputs *)
(* ===================================================================== *)

Lemma builder_variables_are_vertices_witness :
  variables_in_range Scenario.group_cc Cases.group_locals.
Proof.
  apply (builder_variables_are_vertices Scenario.group_env Scenario.mpf Scenario.group_cc
           (vertices Scenario.group_cc) Cases.group_locals).
  vm_compute. reflexivity.
Defined.

Lemma psm_without_parent_is_undefined_witness :
  GraphInferenceFunctor_call Scenario.engine Cases.orphan_psm Scenario.group_env = None
  /\ ExtendedGraphInferenceFunctor_call Scenario.engine Cases.orphan_psm Scenario.group_env
     = None.
Proof.
  apply (psm_without_parent_is_undefined Scenario.engine Scenario.group_env Cases.orphan_psm
           0%nat {| property := PeptideHitPtr 0 0; adjacent_vertices := [1%nat] |});
    solve [ simpl; lia | reflexivity ].
Defined.

Lemma group_without_protein_is_undefined_witness :
  AnnotateIndistGroupsFunctor Scenario.group_env Cases.orphan_group = None
  /\ runAnnotateIndistGroupsFunctor Cases.orphan_group Scenario.group_env = None.
Proof.
  apply (group_without_protein_is_undefined Scenario.group_env Cases.orphan_group 0%nat
           {| property := ProteinGroup; adjacent_vertices := [1%nat] |});
    solve [ simpl; lia | reflexivity ].
Defined.

Lemma write_back_leaves_other_proteins_witness :
  deref_ProteinHit
    (Cases.after (for_each [Scenario.posterior01]
                    (GraphInferenceFunctor.write_back Scenario.group_cc))
       Scenario.group_env) 1
  = deref_ProteinHit Scenario.group_env 1.
Proof.
  apply (write_back_leaves_other_proteins Scenario.group_cc [Scenario.posterior01]
           Scenario.group_env _ 1%nat).
  - vm_compute. reflexivity.
  - repeat constructor. intros H. vm_compute in H. discriminate.
Defined.

Lemma protein_gets_last_posterior_witness :
  ph_score <$>
    deref_ProteinHit
      (Cases.after (for_each ([] ++ Scenario.posterior01 :: [Scenario.posterior0])
                      (GraphInferenceFunctor.write_back Scenario.group_cc))
         Scenario.group_env) 0
  = Some 0.75%float.
Proof.
  apply (protein_gets_last_posterior Scenario.group_cc [] [Scenario.posterior0]
           Scenario.posterior01 Scenario.group_env _ 0%nat 0.75%float).
  - vm_compute. reflexivity.
  - reflexivity.
  - reflexivity.
  - repeat constructor. intros H. vm_compute in H. discriminate.
Defined.

Lemma inference_changes_scores_only_witness :
  scores_only Scenario.group_env
    (Cases.after (GraphInferenceFunctor_call Scenario.engine Scenario.group_cc)
       Scenario.group_env).
Proof.
  apply (inference_changes_scores_only Scenario.engine Scenario.group_cc).
  vm_compute. reflexivity.
Defined.


Lemma evaluator_sets_model_parameters_witness :
  param_ (Cases.after Cases.evaluation (Scenario.env0 defaults_))
  = with_model_parameters 0.3%float 0.001%float 0.5%float (param_ (Scenario.env0 defaults_))
  /\ Scenario.fdr 0.3%float
       <$> firstProteinID (Cases.after Cases.evaluation (Scenario.env0 defaults_))
     = Some (Cases.value 0.0%float Cases.evaluation (Scenario.env0 defaults_))
  /\ hits_kept (Scenario.env0 defaults_)
       (Cases.after Cases.evaluation (Scenario.env0 defaults_)).
Proof.
  apply (evaluator_sets_model_parameters Scenario.engine (Scenario.fdr 0.3%float)
           Scenario.ibg 0.3%float 0.001%float 0.5%float).
  vm_compute. reflexivity.
Defined.

Lemma run_keeps_hits_witness :
  peptideIDs (Cases.after Cases.run (Scenario.env0 defaults_))
  = peptideIDs (Scenario.env0 defaults_)
  /\ accessions_of (Cases.after Cases.run (Scenario.env0 defaults_))
     = accessions_of (Scenario.env0 defaults_).
Proof.
  apply (run_keeps_hits Scenario.engine (Scenario.fdr 0.1%float) Scenario.build
           Scenario.build Scenario.components Scenario.cluster Scenario.cluster).
  vm_compute. reflexivity.
Defined.



Lemma run_on_empty_input_is_undefined_witness :
  Cases.run Cases.empty_env = None.
Proof.
  apply (run_on_empty_input_is_undefined Scenario.engine (Scenario.fdr 0.1%float)
           Scenario.build Scenario.build Scenario.components Scenario.cluster
           Scenario.cluster Cases.empty_env).
  reflexivity.
Defined.

Lemma run_without_components_witness :
  exists env',
    Cases.run_no_components (Scenario.env0 defaults_) = Some (tt, env')
    /\ proteinIDs env'
       = setHigherScoreBetter true
           (setScoreType "Posterior Probability"
              {| score_type := ""; higher_score_better := false;
                 prot_hits := [ {| ph_accession := "P1"; ph_score := 0.0%float |} ] |})
         :: [Scenario.second_run]
    /\ schedules_used (log env') = schedules_used (log (Scenario.env0 defaults_)).
Proof.
  apply (run_without_components Scenario.engine (Scenario.fdr 0.1%float) Scenario.build
           Scenario.build Cases.no_components Scenario.cluster Scenario.cluster
           (Scenario.env0 defaults_) _ [Scenario.second_run] 1%Z).
  - reflexivity.
  - vm_compute. reflexivity.
  - lia.
  - reflexivity.
Defined.

Lemma run_rejects_nonpositive_probability_witness :
  IsoSpec.run IsoSpec.two_peaks true Cases.isotopeNr Cases.atomCounts Cases.isotopeMasses
    Cases.zero_probability IsoSpec.new
  = IsoSpec.ThrownIllegalArgument.
Proof.
  apply (run_rejects_nonpositive_probability IsoSpec.two_peaks true Cases.isotopeNr
           Cases.atomCounts Cases.isotopeMasses Cases.zero_probability IsoSpec.new
           [1.0; 0.0]%float 0.0%float).
  - intros _. repeat split.
  - right. left. reflexivity.
  - right. left. reflexivity.
  - reflexivity.
Defined.

Lemma run_result_is_parallel_witness :
  IsoSpec.all_positive Cases.isotopeProbabilities = true
  /\ length (IsoSpec.getMasses
               {| IsoSpec.threshold_ := 0.01%float; IsoSpec.absolute_ := false;
                  IsoSpec.masses_ := [180.06; 181.07]%float;
                  IsoSpec.probabilities_ := [0.92; 0.07]%float |})
     = length (IsoSpec.getProbabilities
                 {| IsoSpec.threshold_ := 0.01%float; IsoSpec.absolute_ := false;
                    IsoSpec.masses_ := [180.06; 181.07]%float;
                    IsoSpec.probabilities_ := [0.92; 0.07]%float |})
  /\ 0.01%float = IsoSpec.threshold_ IsoSpec.new
  /\ false = IsoSpec.absolute_ IsoSpec.new.
Proof.
  apply (run_result_is_parallel IsoSpec.two_peaks false Cases.isotopeNr Cases.atomCounts
           Cases.isotopeMasses Cases.isotopeProbabilities IsoSpec.new
           {| IsoSpec.threshold_ := 0.01%float; IsoSpec.absolute_ := false;
              IsoSpec.masses_ := [180.06; 181.07]%float;
              IsoSpec.probabilities_ := [0.92; 0.07]%float |}).
  vm_compute. reflexivity.
Defined.


Lemma group_records_are_never_empty_witness :
  length [ {| probability := 0.7%float; accessions := ["P1"; "P2"]%string |} ]
  = length (List.filter (is_group Scenario.group_cc) (vertices Scenario.group_cc))
  /\ Forall (fun pg => accessions pg <> [])
       [ {| probability := 0.7%float; accessions := ["P1"; "P2"]%string |} ].
Proof.
  apply (group_records_are_never_empty Scenario.group_env Scenario.group_cc).
  - simpl. lia.
  - vm_compute. reflexivity.
Defined.

Lemma second_pass_changes_nothing_witness :
  proteinIDs
    (Cases.after (GraphInferenceFunctor_call Scenario.engine Scenario.group_cc)
       (Cases.after (GraphInferenceFunctor_call Scenario.engine Scenario.group_cc)
          Scenario.group_env))
  = proteinIDs
      (Cases.after (GraphInferenceFunctor_call Scenario.engine Scenario.group_cc)
         Scenario.group_env)
  /\ param_
       (Cases.after (GraphInferenceFunctor_call Scenario.engine Scenario.group_cc)
          (Cases.after (GraphInferenceFunctor_call Scenario.engine Scenario.group_cc)
             Scenario.group_env))
     = param_
         (Cases.after (GraphInferenceFunctor_call Scenario.engine Scenario.group_cc)
            Scenario.group_env)
  /\ peptideIDs
       (Cases.after (GraphInferenceFunctor_call Scenario.engine Scenario.group_cc)
          (Cases.after (GraphInferenceFunctor_call Scenario.engine Scenario.group_cc)
             Scenario.group_env))
     = peptideIDs
         (Cases.after (GraphInferenceFunctor_call Scenario.engine Scenario.group_cc)
            Scenario.group_env).
Proof.
  apply (second_pass_changes_nothing Scenario.engine Scenario.group_cc Scenario.group_env);
    vm_compute; reflexivity.
Defined.
